(** * Beacon entry validation and production (package [beacon])

    A shallow embedding of [ValidateBlockValues], [BeaconEntriesForBlock]
    and [reverse], together with the properties of the beacon
    specification that concern them.

    Conventions of the embedding:
    - [uint64] and [int64] ([abi.ChainEpoch]) values are integers of [Z];
      every arithmetic operation of the source that can wrap around is
      written with [wrapU64] / [wrapS64].
    - A Go [error] coming from a beacon or from the context is its message
      (a [string]); the errors built by this package with [fmt.Errorf] are
      the constructors of [error], which keep the formatted arguments.
    - The [RandomBeacon] interface is a type class over the type of beacon
      values; [parentBeacon != currBeacon] is decidable equality on them.
    - Calls of the interface methods [Entry] and [VerifyEntry] are recorded
      in a trace, so that "which rounds were requested" and "which entries
      were verified" can be stated.
    - [Entry] returns a single-shot channel: it is modelled by the
      [Response] it delivers.  A [select] between that channel and
      [ctx.Done()] asks the context, in the world reached after the
      request, whether the cancellation wins. *)

From Stdlib Require Import ZArith Lia String.
From stdpp Require Import base list gmap.

Local Open Scope Z_scope.

Module Beacon.

(** ** Machine integers *)

Definition wrapU64 (z : Z) : Z := z mod 2 ^ 64.
Definition wrapS64 (z : Z) : Z := (z + 2 ^ 63) mod 2 ^ 64 - 2 ^ 63.

Definition in_int64 (z : Z) : Prop := - 2 ^ 63 <= z < 2 ^ 63.

(** [abi.ChainEpoch] is [int64]; [network.Version] is an unsigned integer. *)
Definition ChainEpoch := Z.
Definition Version := Z.

Definition epochAdd (a b : ChainEpoch) : ChainEpoch := wrapS64 (a + b).
Definition epochDec (a : ChainEpoch) : ChainEpoch := wrapS64 (a - 1).
(** [abi.ChainEpoch(i)] for a slice index [i]. *)
Definition epochOfIndex (i : nat) : ChainEpoch := wrapS64 (Z.of_nat i).

(** ** Data model *)

(** [types.BeaconEntry] *)
Record BeaconEntry := { Round : Z; Data : list Byte.byte }.

(** The fields of [types.BlockHeader] read by this package. *)
Record BlockHeader := { Height : ChainEpoch; BeaconEntries : list BeaconEntry }.

(** [Response]: [Err = None] is Go's [nil] error. *)
Record Response := { Entry_ : BeaconEntry; Err : option string }.

(** Errors built by this package; each constructor keeps the arguments of
    the corresponding [fmt.Errorf] call, in order. *)
Inductive error :=
| ErrForkCount (got : nat)
    (* expected two beacon entries at beacon fork, got %d *)
| ErrForkInvalid (second first : BeaconEntry) (err : string)
    (* beacon at fork point invalid: (%v, %v): %w *)
| ErrUnexpectedEntries (got : nat)
    (* expected not to have any beacon entries in this block, got %d *)
| ErrNoEntries
    (* expected to have beacon entries in this block, but didn't find any *)
| ErrFinalRound (maxRound got : Z)
    (* expected final beacon entry in block to be at round %d, got %d *)
| ErrUnexpectedRound (got correctRound : Z) (epoch : ChainEpoch)
    (* unexpected beacon round %d, expected %d for epoch %d *)
| ErrEntryInvalid (i : nat) (round : Z) (data : list Byte.byte) (len : nat)
                  (err : string)
    (* beacon entry %d (%d - %x (%d)) was invalid: %w *)
| ErrGettingEntry (round : Z) (err : string)
    (* getting entry %d returned error: %w *)
| ErrEntryRequest (err : string)
    (* beacon entry request returned error: %w *)
| ErrContextTimedOut (epoch : ChainEpoch) (cause : string).
    (* context timed out waiting on beacon entry to come back for epoch %d: %w *)

(** [context.Context]: [Done ctx w = Some cause] when, in world [w], the
    [ctx.Done()] case of a [select] is taken; [cause] is [ctx.Err()]. *)
Record Ctx (World : Type) := { Done : World -> option string }.
Arguments Done {World} _ _.

(** The [RandomBeacon] interface, and the [BeaconForEpoch] method of the
    schedule.  The type [Schedule] and its method are declared outside the
    file under study; they are taken here as parameters of the
    development. *)
Class RandomBeacon (World B Schedule : Type) := {
  beacon_eq_dec :: EqDecision B;
  Entry : B -> Ctx World -> Z -> World -> Response * World;
  VerifyEntry : B -> BeaconEntry -> list Byte.byte -> option string;
  MaxBeaconRoundForEpoch : B -> Version -> ChainEpoch -> Z;
  IsChained : B -> bool;
  BeaconForEpoch : Schedule -> ChainEpoch -> B
}.

(** ** Traced computations *)

Inductive event (B : Type) :=
| EvEntry (b : B) (round : Z)
| EvVerify (b : B) (entry : BeaconEntry) (prevEntrySig : list Byte.byte).
Arguments EvEntry {B} _ _.
Arguments EvVerify {B} _ _ _.

Record state (World B : Type) := { world : World; trace : list (event B) }.
Arguments world {World B} _.
Arguments trace {World B} _.
Arguments Build_state {World B} _ _.

(** Outcome of a call: a value, a returned [error], a run-time panic
    (index out of range), or the exhaustion of the fuel of a loop. *)
Inductive result (A : Type) :=
| Ok (a : A)
| Fail (e : error)
| Panic
| Stuck.
Arguments Ok {A} _.
Arguments Fail {A} _.
Arguments Panic {A}.
Arguments Stuck {A}.

Definition M (World B A : Type) : Type :=
  state World B -> result A * state World B.

Section Monad.
Context {World B : Type}.

Definition ret {A} (a : A) : M World B A := fun s => (Ok a, s).
Definition fail {A} (e : error) : M World B A := fun s => (Fail e, s).
Definition panic {A} : M World B A := fun s => (Panic, s).
Definition stuck {A} : M World B A := fun s => (Stuck, s).

Definition bind {A C} (m : M World B A) (k : A -> M World B C)
  : M World B C :=
  fun s =>
    match m s with
    | (Ok a, s') => k a s'
    | (Fail e, s') => (Fail e, s')
    | (Panic, s') => (Panic, s')
    | (Stuck, s') => (Stuck, s')
    end.

Definition emit (ev : event B) : M World B unit :=
  fun s => (Ok tt, {| world := world s; trace := trace s ++ [ev] |}).

(** [arr[i]]: out of range is a run-time panic. *)
Definition index {A} (arr : list A) (i : nat) : M World B A :=
  match arr !! i with
  | Some x => ret x
  | None => panic
  end.
End Monad.

Notation "x <- m ;; k" := (bind m (fun x => k))
  (at level 100, m at next level, right associativity).
Notation "m ;;; k" := (bind m (fun _ => k))
  (at level 100, right associativity).

Section Core.
Context {World B Schedule : Type} `{RandomBeacon World B Schedule}.

Local Abbreviation M := (M World B).

(** [currBeacon.VerifyEntry(entry, sig)] *)
Definition callVerifyEntry (b : B) (entry : BeaconEntry)
    (prevEntrySig : list Byte.byte) : M (option string) :=
  emit (EvVerify b entry prevEntrySig) ;;;
  ret (VerifyEntry b entry prevEntrySig).

(** [rch := b.Entry(ctx, round)]: the channel is the response it will
    deliver. *)
Definition callEntry (b : B) (ctx : Ctx World) (round : Z) : M Response :=
  emit (EvEntry b round) ;;;
  fun s =>
    let '(resp, w) := Entry b ctx round (world s) in
    (Ok resp, {| world := w; trace := trace s |}).

(** [res := <-rch] *)
Definition recv (rch : Response) : M Response := ret rch.

(** [select { case resp := <-rch: ... case <-ctx.Done(): ... }] *)
Definition selectRecv (ctx : Ctx World) (rch : Response)
  : M (Response + string) :=
  fun s =>
    match Done ctx (world s) with
    | Some cause => (Ok (inr cause), s)
    | None => (Ok (inl rch), s)
    end.

(** *** [ValidateBlockValues] *)

(** The loop over [h.BeaconEntries] that checks the rounds of an
    unchained beacon; [i] is the index of the head of [es]. *)
Fixpoint checkRounds (currBeacon : B) (nv : Version)
    (parentEpoch : ChainEpoch) (i : nat) (es : list BeaconEntry)
  : M unit :=
  match es with
  | [] => ret tt
  | e :: es' =>
      let correctRound :=
        MaxBeaconRoundForEpoch currBeacon nv
          (epochAdd (epochAdd parentEpoch (epochOfIndex i)) 1) in
      if negb (Round e =? correctRound) then
        fail (ErrUnexpectedRound (Round e) correctRound
                (epochAdd parentEpoch (epochOfIndex i)))
      else checkRounds currBeacon nv parentEpoch (S i) es'
  end.

(** The loop that verifies the entries; [prevEntry] is re-pointed to the
    entry just verified. *)
Fixpoint verifyEntries (currBeacon : B) (i : nat)
    (es : list BeaconEntry) (prevEntry : BeaconEntry) : M unit :=
  match es with
  | [] => ret tt
  | e :: es' =>
      err <- callVerifyEntry currBeacon e (Data prevEntry) ;;
      match err with
      | Some err =>
          fail (ErrEntryInvalid i (Round e) (Data e)
                  (length (Data e)) err)
      | None => verifyEntries currBeacon (S i) es' e
      end
  end.

Definition ValidateBlockValues (bSchedule : Schedule) (nv : Version)
    (h : BlockHeader) (parentEpoch : ChainEpoch)
    (prevEntry : BeaconEntry) : M unit :=
  let parentBeacon := BeaconForEpoch bSchedule parentEpoch in
  let currBeacon := BeaconForEpoch bSchedule (Height h) in
  if bool_decide (parentBeacon <> currBeacon) && IsChained currBeacon then
    if negb (Nat.eqb (length (BeaconEntries h)) 2) then
      fail (ErrForkCount (length (BeaconEntries h)))
    else
      e1 <- index (BeaconEntries h) 1 ;;
      e0 <- index (BeaconEntries h) 0 ;;
      err <- callVerifyEntry currBeacon e1 (Data e0) ;;
      match err with
      | Some err => fail (ErrForkInvalid e1 e0 err)
      | None => ret tt
      end
  else
    let maxRound := MaxBeaconRoundForEpoch currBeacon nv (Height h) in
    if maxRound =? Round prevEntry then
      if negb (Nat.eqb (length (BeaconEntries h)) 0) then
        fail (ErrUnexpectedEntries (length (BeaconEntries h)))
      else ret tt
    else if Nat.eqb (length (BeaconEntries h)) 0 then
      fail ErrNoEntries
    else if IsChained currBeacon && (Round prevEntry =? 0) then
      ret tt
    else
      last <- index (BeaconEntries h)
                (length (BeaconEntries h) - 1)%nat ;;
      if negb (Round last =? maxRound) then
        fail (ErrFinalRound maxRound (Round last))
      else
        (if negb (IsChained currBeacon) then
           checkRounds currBeacon nv parentEpoch 0 (BeaconEntries h)
         else ret tt) ;;;
        verifyEntries currBeacon 0 (BeaconEntries h) prevEntry.

(** *** [reverse] *)

(** [for i := 0; i < len(arr)/2; i++ { swap arr[i], arr[len-(1+i)] }];
    both sides of the assignment are read before either is written. *)
Fixpoint reverseLoop (fuel : nat) (i : nat) (arr : list BeaconEntry)
  : M (list BeaconEntry) :=
  if Nat.ltb i (length arr / 2)%nat then
    match fuel with
    | O => stuck
    | S fuel' =>
        x <- index arr (length arr - (1 + i))%nat ;;
        y <- index arr i ;;
        reverseLoop fuel' (S i)
          (<[(length arr - (1 + i))%nat := y]> (<[i := x]> arr))
    end
  else ret arr.

Definition reverse (arr : list BeaconEntry) : M (list BeaconEntry) :=
  reverseLoop (length arr) 0 arr.

(** *** [BeaconEntriesForBlock] *)

(** [for currEpoch := epoch; currEpoch > parentEpoch; currEpoch--];
    [epoch] is the argument of the enclosing function, which the
    cancellation error reports. *)
Fixpoint fetchLoop (fuel : nat) (ctx : Ctx World) (currBeacon : B)
    (nv : Version) (epoch parentEpoch : ChainEpoch)
    (currEpoch : ChainEpoch) (out : list BeaconEntry)
  : M (list BeaconEntry) :=
  if currEpoch >? parentEpoch then
    match fuel with
    | O => stuck
    | S fuel' =>
        let currRound := MaxBeaconRoundForEpoch currBeacon nv currEpoch in
        rch <- callEntry currBeacon ctx currRound ;;
        sel <- selectRecv ctx rch ;;
        match sel with
        | inl resp =>
            match Err resp with
            | Some err => fail (ErrEntryRequest err)
            | None =>
                fetchLoop fuel' ctx currBeacon nv epoch parentEpoch
                  (epochDec currEpoch) (out ++ [Entry_ resp])
            end
        | inr cause => fail (ErrContextTimedOut epoch cause)
        end
    end
  else ret out.

Definition BeaconEntriesForBlock (ctx : Ctx World) (bSchedule : Schedule)
    (nv : Version) (epoch parentEpoch : ChainEpoch) (prev : BeaconEntry)
  : M (list BeaconEntry) :=
  let parentBeacon := BeaconForEpoch bSchedule parentEpoch in
  let currBeacon := BeaconForEpoch bSchedule epoch in
  if bool_decide (parentBeacon <> currBeacon) && IsChained currBeacon then
    let round := MaxBeaconRoundForEpoch currBeacon nv epoch in
    rch <- callEntry currBeacon ctx (wrapU64 (round - 1)) ;;
    res <- recv rch ;;
    match Err res with
    | Some err => fail (ErrGettingEntry (wrapU64 (round - 1)) err)
    | None =>
        let out0 := Entry_ res in
        rch <- callEntry currBeacon ctx round ;;
        res <- recv rch ;;
        match Err res with
        | Some err => fail (ErrGettingEntry round err)
        | None => ret [out0; Entry_ res]
        end
    end
  else
    let maxRound := MaxBeaconRoundForEpoch currBeacon nv epoch in
    if maxRound =? Round prev then ret []
    else
      let prev :=
        if Round prev =? 0
        then {| Round := wrapU64 (maxRound - 1); Data := Data prev |}
        else prev in
      out <- fetchLoop (Z.to_nat (epoch - parentEpoch)) ctx currBeacon nv
               epoch parentEpoch epoch [] ;;
      reverse out.

End Core.

(** ** Notions used by the properties *)

(** The entry whose data is the [prevEntrySig] of the [k]-th verification:
    the caller's [prevEntry] for the first, the preceding block entry for
    the others. *)
Definition prevOf (prevEntry : BeaconEntry) (es : list BeaconEntry) (k : nat)
  : option BeaconEntry :=
  match k with
  | O => Some prevEntry
  | S j => es !! j
  end.

(** The [VerifyEntry] calls of a complete pass over [es]. *)
Fixpoint chainCalls {B : Type} (b : B) (prevEntry : BeaconEntry)
    (es : list BeaconEntry) : list (event B) :=
  match es with
  | [] => []
  | e :: es' => EvVerify b e (Data prevEntry) :: chainCalls b e es'
  end.

(** The state [s] after the calls [evs]. *)
Definition logged {World B : Type} (s : state World B)
    (evs : list (event B)) : state World B :=
  {| world := world s; trace := trace s ++ evs |}.

(** Order of a sequence of rounds. *)
Definition strictlyIncreasing (rounds : list Z) : Prop :=
  forall (i j : nat) (x y : Z),
    (i < j)%nat -> rounds !! i = Some x -> rounds !! j = Some y -> x < y.

Definition nonDecreasing (rounds : list Z) : Prop :=
  forall (i j : nat) (x y : Z),
    (i < j)%nat -> rounds !! i = Some x -> rounds !! j = Some y -> x <= y.

Section Notions.
Context {World B Schedule : Type} `{RandomBeacon World B Schedule}.

Implicit Types (b : B) (s : state World B) (ctx : Ctx World)
  (bSchedule : Schedule) (nv : Version) (es : list BeaconEntry).

(** The guard of the fork branch of both functions. *)
Definition forkCase bSchedule (parentEpoch epoch : ChainEpoch) : bool :=
  bool_decide (BeaconForEpoch bSchedule parentEpoch
               <> BeaconForEpoch bSchedule epoch)
  && IsChained (BeaconForEpoch bSchedule epoch).

(** State of the array after [i] swaps of [reverseLoop] on [a0]. *)
Definition swapped (a0 arr : list BeaconEntry) (i : nat) : Prop :=
  length arr = length a0 /\
  forall j : nat, (j < length a0)%nat ->
    arr !! j =
      if decide (j < i \/ length a0 - i <= j)%nat
      then a0 !! (length a0 - S j)%nat
      else a0 !! j.

(** Every entry verifies against its predecessor. *)
Definition chainVerified b (prevEntry : BeaconEntry) es : Prop :=
  forall (k : nat) (e p : BeaconEntry),
    es !! k = Some e -> prevOf prevEntry es k = Some p ->
    VerifyEntry b e (Data p) = None.

(** The rounds an unchained beacon expects at each position. *)
Definition roundsAsExpected b (nv : Version) (parentEpoch : ChainEpoch)
    (i : nat) es : Prop :=
  forall (k : nat) (e : BeaconEntry),
    es !! k = Some e ->
    Round e = MaxBeaconRoundForEpoch b nv
                (epochAdd (epochAdd parentEpoch (epochOfIndex (i + k))) 1).

(** A beacon whose successful responses carry the requested round. *)
Definition roundFaithful b : Prop :=
  forall ctx (round : Z) (w : World),
    Err (Entry b ctx round w).1 = None ->
    Round (Entry_ (Entry b ctx round w).1) = round.

(** State after the request of [round] to [b]. *)
Definition requested b ctx (round : Z) s : state World B :=
  {| world := (Entry b ctx round (world s)).2;
     trace := trace s ++ [EvEntry b round] |}.

(** The loop is cancelled while it awaits the entry of epoch [e]: the
    earlier epochs were answered, and the context is done once the
    request for [e] is pending. *)
Inductive cancelledAt ctx b (nv : Version) (parentEpoch : ChainEpoch)
  : ChainEpoch -> World -> ChainEpoch -> string -> Prop :=
| cancelled_now (currEpoch : ChainEpoch) (w : World) (cause : string) :
    parentEpoch < currEpoch ->
    Done ctx (Entry b ctx (MaxBeaconRoundForEpoch b nv currEpoch) w).2
    = Some cause ->
    cancelledAt ctx b nv parentEpoch currEpoch w currEpoch cause
| cancelled_later (currEpoch : ChainEpoch) (w : World)
      (e : ChainEpoch) (cause : string) :
    parentEpoch < currEpoch ->
    Done ctx (Entry b ctx (MaxBeaconRoundForEpoch b nv currEpoch) w).2
    = None ->
    Err (Entry b ctx (MaxBeaconRoundForEpoch b nv currEpoch) w).1 = None ->
    cancelledAt ctx b nv parentEpoch (epochDec currEpoch)
      (Entry b ctx (MaxBeaconRoundForEpoch b nv currEpoch) w).2 e cause ->
    cancelledAt ctx b nv parentEpoch currEpoch w e cause.

End Notions.

(** ** A concrete setting

    Beacons that answer every request at once; the world counts the
    requests sent so far. *)

(** [BeaconPoint] *)
Record BeaconPoint (B : Type) := { Start : ChainEpoch; Beacon : B }.
Arguments Start {B} _.
Arguments Beacon {B} _.

Record TestBeacon := {
  tbName : nat;
  tbChained : bool;
  tbPeriod : Z;       (* epochs per round *)
  tbBadRound : Z;     (* the round whose entry never verifies *)
  tbDownRound : Z     (* the round whose request fails *)
}.

#[global] Instance TestBeacon_eq_dec : EqDecision TestBeacon.
Proof. solve_decision. Defined.

(** Modelled from the spec: the schedule is a list of points ordered by
    [Start] descending, and [BeaconForEpoch] returns the beacon of the
    first point whose [Start] is at most the epoch.  The spec leaves the
    result undefined when no point qualifies; [dflt] stands for it. *)
Fixpoint beaconForEpoch {B : Type} (dflt : B) (points : list (BeaconPoint B))
    (e : ChainEpoch) : B :=
  match points with
  | [] => dflt
  | p :: rest =>
      if Start p <=? e then Beacon p else beaconForEpoch dflt rest e
  end.

Definition mainBeacon : TestBeacon :=
  {| tbName := 0; tbChained := false; tbPeriod := 1;
     tbBadRound := 0; tbDownRound := 0 |}.
Definition slowBeacon : TestBeacon :=
  {| tbName := 1; tbChained := false; tbPeriod := 2;
     tbBadRound := 0; tbDownRound := 0 |}.
Definition chainBeacon : TestBeacon :=
  {| tbName := 2; tbChained := true; tbPeriod := 1;
     tbBadRound := 104; tbDownRound := 0 |}.

(** A chained beacon that is still at round 0 when it takes over. *)
Definition lateBeacon : TestBeacon :=
  {| tbName := 3; tbChained := true; tbPeriod := 1000;
     tbBadRound := 0; tbDownRound := 0 |}.

Definition TestSchedule := list (BeaconPoint TestBeacon).

Definition lateSchedule : TestSchedule :=
  [ {| Start := 100; Beacon := lateBeacon |};
    {| Start := 0; Beacon := mainBeacon |} ].

Definition testSchedule : TestSchedule :=
  [ {| Start := 100; Beacon := chainBeacon |};
    {| Start := 20; Beacon := slowBeacon |};
    {| Start := 0; Beacon := mainBeacon |} ].

#[global] Instance testRandomBeacon : RandomBeacon nat TestBeacon TestSchedule := {|
  Entry b ctx round w :=
    ({| Entry_ := {| Round := round; Data := [] |};
        Err := if round =? tbDownRound b
               then Some "round not available"%string else None |},
     S w);
  VerifyEntry b entry prevEntrySig :=
    if Round entry =? tbBadRound b
    then Some "invalid signature"%string else None;
  MaxBeaconRoundForEpoch b nv e := Z.max 0 (e / tbPeriod b);
  IsChained := tbChained;
  BeaconForEpoch := beaconForEpoch mainBeacon
|}.

(** A context that is never cancelled, and one whose deadline passes once
    [n] requests have been sent. *)
Definition background : Ctx nat := {| Done := fun _ => None |}.
Definition deadlineAfter (n : nat) : Ctx nat :=
  {| Done := fun w => if (n <=? w)%nat
                      then Some "context deadline exceeded"%string
                      else None |}.

Definition start : state nat TestBeacon := {| world := O; trace := [] |}.

Definition entry (round : Z) : BeaconEntry := {| Round := round; Data := [] |}.

(** * Proofs *)

(** ** Machine arithmetic *)

Lemma wrapS64_id (z : Z) : in_int64 z -> wrapS64 z = z.
Proof.
  unfold in_int64, wrapS64. intros Hz.
  rewrite Z.mod_small by lia. lia.
Qed.

Lemma wrapS64_add_l (a b : Z) : wrapS64 (wrapS64 a + b) = wrapS64 (a + b).
Proof.
  unfold wrapS64.
  replace ((a + 2 ^ 63) mod 2 ^ 64 - 2 ^ 63 + b + 2 ^ 63)
    with ((a + 2 ^ 63) mod 2 ^ 64 + b) by lia.
  rewrite Zplus_mod_idemp_l. f_equal. f_equal. lia.
Qed.

Lemma wrapS64_add_r (a b : Z) : wrapS64 (a + wrapS64 b) = wrapS64 (a + b).
Proof. rewrite Z.add_comm, wrapS64_add_l. f_equal. lia. Qed.

(** The epoch [parentEpoch + ChainEpoch(i) + 1] of the round check does not
    wrap when it is representable. *)
Lemma epoch_of_position (parentEpoch : ChainEpoch) (i : nat) :
  in_int64 (parentEpoch + Z.of_nat i + 1) ->
  epochAdd (epochAdd parentEpoch (epochOfIndex i)) 1
  = parentEpoch + Z.of_nat i + 1.
Proof.
  intros Hr. unfold epochAdd, epochOfIndex.
  rewrite wrapS64_add_l.
  replace (parentEpoch + wrapS64 (Z.of_nat i) + 1)
    with (parentEpoch + 1 + wrapS64 (Z.of_nat i)) by lia.
  rewrite wrapS64_add_r.
  replace (parentEpoch + 1 + Z.of_nat i) with (parentEpoch + Z.of_nat i + 1)
    by lia.
  by apply wrapS64_id.
Qed.

Lemma epochDec_no_wrap (parentEpoch currEpoch : ChainEpoch) :
  in_int64 parentEpoch -> in_int64 currEpoch -> parentEpoch < currEpoch ->
  epochDec currEpoch = currEpoch - 1.
Proof.
  unfold in_int64, epochDec. intros Hp Hc Hlt.
  apply wrapS64_id. unfold in_int64. lia.
Qed.

Lemma wrapU64_pred_zero : wrapU64 (0 - 1) = 2 ^ 64 - 1.
Proof. reflexivity. Qed.

Lemma wrapU64_pred (round : Z) :
  1 <= round < 2 ^ 64 -> wrapU64 (round - 1) = round - 1.
Proof. intros Hr. unfold wrapU64. apply Z.mod_small. lia. Qed.

(** ** The in-place reversal *)

Section Reverse.
Context {World B Schedule : Type} `{RandomBeacon World B Schedule}.

Lemma swapped_init (a0 : list BeaconEntry) : swapped a0 a0 0.
Proof.
  split; [done|]. intros j Hj.
  destruct (decide _) as [[?|?]|?]; [lia|lia|done].
Qed.

Lemma swapped_done (a0 arr : list BeaconEntry) (i : nat) :
  swapped a0 arr i -> (i <= length a0 / 2)%nat ->
  ~ (i < length a0 / 2)%nat -> arr = rev a0.
Proof.
  intros [Hlen Hsw] Hle Hnlt.
  assert (i = (length a0 / 2)%nat) as Hi by lia.
  pose proof (Nat.div_mod_eq (length a0) 2) as Hdm.
  pose proof (Nat.mod_upper_bound (length a0) 2 ltac:(lia)) as Hmod.
  rewrite rev_alt. change (rev_append a0 []) with (list.reverse a0).
  apply list_eq. intros j.
  destruct (decide (j < length a0)%nat) as [Hj|Hj].
  - rewrite (reverse_lookup a0 j Hj), (Hsw j Hj).
    destruct (decide _) as [_|Hmid]; [done|].
    f_equal. lia.
  - rewrite !lookup_ge_None_2; [done| |lia].
    rewrite length_reverse. lia.
Qed.

Lemma swapped_step (a0 arr : list BeaconEntry) (i : nat) (x y : BeaconEntry) :
  swapped a0 arr i -> (i < length a0 / 2)%nat ->
  arr !! (length arr - (1 + i))%nat = Some x -> arr !! i = Some y ->
  swapped a0 (<[(length arr - (1 + i))%nat := y]> (<[i := x]> arr)) (S i).
Proof.
  intros [Hlen Hsw] Hlt Hx Hy.
  pose proof (Nat.div_mod_eq (length a0) 2) as Hdm.
  pose proof (Nat.mod_upper_bound (length a0) 2 ltac:(lia)) as Hmod.
  split; [by rewrite !length_insert|].
  intros j Hj. rewrite Hlen in *.
  rewrite (Hsw (length a0 - (1 + i))%nat ltac:(lia)) in Hx.
  rewrite (Hsw i ltac:(lia)) in Hy.
  destruct (decide _) as [?|_] in Hx; [lia|].
  destruct (decide _) as [?|_] in Hy; [lia|].
  destruct (decide (j = length a0 - (1 + i))%nat) as [->|Hne1].
  - rewrite list_lookup_insert_eq by (rewrite length_insert; lia).
    destruct (decide _) as [_|?]; [|lia].
    rewrite <- Hy. f_equal. lia.
  - rewrite list_lookup_insert_ne by lia.
    destruct (decide (j = i)) as [->|Hne2].
    + rewrite list_lookup_insert_eq by lia.
      destruct (decide _) as [_|?]; [|lia].
      rewrite <- Hx. f_equal.
    + rewrite list_lookup_insert_ne by lia.
      rewrite (Hsw j Hj).
      destruct (decide _), (decide _); try done; lia.
Qed.

Lemma reverseLoop_unfold (fuel i : nat) (arr : list BeaconEntry) :
  reverseLoop fuel i arr =
    if Nat.ltb i (length arr / 2)%nat then
      match fuel return M World B (list BeaconEntry) with
      | O => stuck
      | S fuel' =>
          x <- index arr (length arr - (1 + i))%nat ;;
          y <- index arr i ;;
          reverseLoop fuel' (S i)
            (<[(length arr - (1 + i))%nat := y]> (<[i := x]> arr))
      end
    else ret arr.
Proof. destruct fuel; reflexivity. Qed.

Lemma reverseLoop_spec (a0 : list BeaconEntry) (s : state World B) :
  forall (fuel i : nat) (arr : list BeaconEntry),
    swapped a0 arr i -> (i <= length a0 / 2)%nat ->
    (length a0 / 2 - i <= fuel)%nat ->
    reverseLoop fuel i arr s = (Ok (rev a0), s).
Proof.
  induction fuel as [|fuel IH]; intros i arr Hsw Hle Hfuel;
    rewrite reverseLoop_unfold; pose proof Hsw as [Hlen _];
    destruct (Nat.ltb_spec i (length arr / 2)) as [Hlt|Hge];
    rewrite Hlen in *.
  - lia.
  - unfold ret. f_equal. f_equal. eapply swapped_done; [done|lia|lia].
  - pose proof (Nat.div_mod_eq (length a0) 2) as Hdm.
    destruct (lookup_lt_is_Some_2 arr (length a0 - (1 + i))%nat
                ltac:(lia)) as [x Hx].
    destruct (lookup_lt_is_Some_2 arr i ltac:(lia)) as [y Hy].
    unfold bind, index. rewrite Hx, Hy. unfold ret.
    rewrite <- Hlen. apply IH; [|lia|lia].
    apply swapped_step; [done|done|by rewrite Hlen|done].
  - unfold ret. f_equal. f_equal. eapply swapped_done; [done|lia|lia].
Qed.

(** [reverse] returns the reversed slice; it neither panics nor runs out
    of fuel, and performs no call. *)
Lemma reverse_rev (arr : list BeaconEntry) (s : state World B) :
  reverse arr s = (Ok (rev arr), s).
Proof.
  unfold reverse. apply reverseLoop_spec.
  - apply swapped_init.
  - lia.
  - pose proof (Nat.div_mod_eq (length arr) 2). lia.
Qed.
End Reverse.

(** ** The verification chain and the round check *)

Lemma logged_nil {World B : Type} (s : state World B) : logged s [] = s.
Proof. destruct s. unfold logged. simpl. by rewrite app_nil_r. Qed.

Lemma logged_app {World B : Type} (s : state World B) (l1 l2 : list (event B)) :
  logged (logged s l1) l2 = logged s (l1 ++ l2).
Proof. unfold logged. simpl. by rewrite app_assoc. Qed.




Section Validate.
Context {World B Schedule : Type} `{RandomBeacon World B Schedule}.

Implicit Types (b : B) (s : state World B) (es : list BeaconEntry).

Lemma callVerifyEntry_run b (e : BeaconEntry) (sig : list Byte.byte) s :
  callVerifyEntry b e sig s
  = (Ok (VerifyEntry b e sig), logged s [EvVerify b e sig]).
Proof. reflexivity. Qed.

Lemma chainVerified_cons b (prevEntry e : BeaconEntry) es :
  chainVerified b prevEntry (e :: es) <->
  VerifyEntry b e (Data prevEntry) = None /\ chainVerified b e es.
Proof.
  split.
  - intros Hall. split; [by apply (Hall 0%nat)|].
    intros k e' p He' Hp. apply (Hall (S k)); [done|].
    destruct k; simpl in *; [by simplify_eq|done].
  - intros [Hhd Htl] [|k] e' p He' Hp; simpl in *; [by simplify_eq|].
    apply (Htl k); [done|]. destruct k; simpl in *; [by simplify_eq|done].
Qed.

Lemma verifyEntries_ok b es :
  forall (i : nat) (prevEntry : BeaconEntry) s,
    chainVerified b prevEntry es ->
    verifyEntries b i es prevEntry s
    = (Ok tt, logged s (chainCalls b prevEntry es)).
Proof.
  induction es as [|e es IH]; intros i prevEntry s Hall; simpl.
  - by rewrite logged_nil.
  - apply chainVerified_cons in Hall as [Hhd Htl].
    unfold bind. rewrite callVerifyEntry_run, Hhd.
    rewrite (IH _ _ _ Htl). by rewrite logged_app.
Qed.



Lemma checkRounds_ok b nv (parentEpoch : ChainEpoch) es :
  forall (i : nat) s,
    roundsAsExpected b nv parentEpoch i es ->
    checkRounds b nv parentEpoch i es s = (Ok tt, s).
Proof.
  induction es as [|e es IH]; intros i s Hall; simpl; [done|].
  rewrite (Hall 0%nat e eq_refl), Nat.add_0_r, Z.eqb_refl. simpl.
  apply IH. intros k e' He'.
  rewrite (Hall (S k) e' He'). do 4 f_equal. lia.
Qed.

Lemma checkRounds_inv b nv (parentEpoch : ChainEpoch) es :
  forall (i : nat) s s',
    checkRounds b nv parentEpoch i es s = (Ok tt, s') ->
    roundsAsExpected b nv parentEpoch i es.
Proof.
  induction es as [|e es IH]; intros i s s' Hrun k e' He'; [done|].
  simpl in Hrun.
  destruct (Z.eqb_spec (Round e) (MaxBeaconRoundForEpoch b nv
    (epochAdd (epochAdd parentEpoch (epochOfIndex i)) 1))) as [Heq|Hne];
    simpl in Hrun; [|done].
  destruct k as [|k]; simpl in He'.
  - simplify_eq. by rewrite Nat.add_0_r.
  - rewrite (IH _ _ _ Hrun k e' He'). do 4 f_equal. lia.
Qed.


(** The first position whose round is not the expected one makes the
    round check fail there. *)
Lemma checkRounds_fail b nv (parentEpoch : ChainEpoch) es :
  forall (i k : nat) (e : BeaconEntry) s,
    es !! k = Some e ->
    Round e <> MaxBeaconRoundForEpoch b nv
                 (epochAdd (epochAdd parentEpoch (epochOfIndex (i + k))) 1) ->
    roundsAsExpected b nv parentEpoch i (take k es) ->
    checkRounds b nv parentEpoch i es s
    = (Fail (ErrUnexpectedRound (Round e)
               (MaxBeaconRoundForEpoch b nv
                  (epochAdd (epochAdd parentEpoch (epochOfIndex (i + k))) 1))
               (epochAdd parentEpoch (epochOfIndex (i + k)))), s).
Proof.
  induction es as [|e0 es IH]; intros i k e s He Hbad Hbefore; [done|].
  destruct k as [|k]; simpl in *.
  - simplify_eq. rewrite Nat.add_0_r in *.
    by destruct (Z.eqb_spec (Round e) (MaxBeaconRoundForEpoch b nv
      (epochAdd (epochAdd parentEpoch (epochOfIndex i)) 1))).
  - rewrite (Hbefore 0%nat e0 eq_refl), Nat.add_0_r, Z.eqb_refl. simpl.
    replace (i + S k)%nat with (S i + k)%nat in * by lia.
    apply IH; [done|done|].
    intros j e' He'. rewrite (Hbefore (S j) e' He'). do 4 f_equal. lia.
Qed.
End Validate.

(** ** The fetch loop *)

Section Fetch.
Context {World B Schedule : Type} `{RandomBeacon World B Schedule}.

Implicit Types (b : B) (s : state World B) (ctx : Ctx World).

Lemma callEntry_run b ctx (round : Z) s :
  callEntry b ctx round s
  = (Ok (Entry b ctx round (world s)).1, requested b ctx round s).
Proof.
  unfold callEntry, bind, emit, requested. simpl.
  by destruct (Entry b ctx round (world s)).
Qed.

(** One iteration of the loop. *)
Lemma fetchLoop_step (fuel : nat) ctx b (nv : Version)
    (epoch parentEpoch currEpoch : ChainEpoch) (out : list BeaconEntry) s :
  parentEpoch < currEpoch ->
  fetchLoop (S fuel) ctx b nv epoch parentEpoch currEpoch out s =
    let round := MaxBeaconRoundForEpoch b nv currEpoch in
    let resp := (Entry b ctx round (world s)).1 in
    let s1 := requested b ctx round s in
    match Done ctx (world s1) with
    | Some cause => (Fail (ErrContextTimedOut epoch cause), s1)
    | None =>
        match Err resp with
        | Some err => (Fail (ErrEntryRequest err), s1)
        | None =>
            fetchLoop fuel ctx b nv epoch parentEpoch
              (epochDec currEpoch) (out ++ [Entry_ resp]) s1
        end
    end.
Proof.
  intros Hlt. simpl.
  destruct (Z.gtb_spec currEpoch parentEpoch) as [_|?]; [|lia].
  unfold bind. rewrite callEntry_run. unfold selectRecv.
  destruct (Done ctx _); [done|].
  by destruct (Err _).
Qed.

Lemma fetchLoop_exit (fuel : nat) ctx b (nv : Version)
    (epoch parentEpoch currEpoch : ChainEpoch) (out : list BeaconEntry) s :
  currEpoch <= parentEpoch ->
  fetchLoop fuel ctx b nv epoch parentEpoch currEpoch out s = (Ok out, s).
Proof.
  intros Hle. destruct fuel; simpl;
    by destruct (Z.gtb_spec currEpoch parentEpoch) as [?|_]; [lia|].
Qed.

(** With fuel for every epoch in [(parentEpoch, currEpoch]] the loop
    returns: a slice or an error, never a panic, never out of fuel. *)
Lemma fetchLoop_returns ctx b (nv : Version) (epoch parentEpoch : ChainEpoch) :
  in_int64 parentEpoch ->
  forall (fuel : nat) (currEpoch : ChainEpoch) (out : list BeaconEntry) s,
    in_int64 currEpoch ->
    (Z.to_nat (currEpoch - parentEpoch) <= fuel)%nat ->
    (exists out' s',
       fetchLoop fuel ctx b nv epoch parentEpoch currEpoch out s
       = (Ok out', s')) \/
    (exists e s',
       fetchLoop fuel ctx b nv epoch parentEpoch currEpoch out s
       = (Fail e, s')).
Proof.
  intros Hp. induction fuel as [|fuel IH]; intros currEpoch out s Hc Hfuel.
  - left. exists out, s. apply fetchLoop_exit. lia.
  - destruct (Z_le_gt_dec currEpoch parentEpoch) as [Hle|Hgt].
    + left. exists out, s. by apply fetchLoop_exit.
    + rewrite fetchLoop_step by lia. cbv zeta.
      destruct (Done ctx _); [right; by eauto|].
      destruct (Err _); [right; by eauto|].
      rewrite (epochDec_no_wrap parentEpoch) by (done || lia).
      apply IH; [unfold in_int64 in *; lia|lia].
Qed.

(** A successful run appends one entry per epoch, from [currEpoch] down
    to [parentEpoch + 1]. *)
Lemma fetchLoop_ok ctx b (nv : Version) (epoch parentEpoch : ChainEpoch) :
  in_int64 parentEpoch -> roundFaithful b ->
  forall (fuel : nat) (currEpoch : ChainEpoch)
         (out out' : list BeaconEntry) s s',
    in_int64 currEpoch ->
    fetchLoop fuel ctx b nv epoch parentEpoch currEpoch out s
    = (Ok out', s') ->
    exists fetched : list BeaconEntry,
      out' = out ++ fetched /\
      length fetched = Z.to_nat (currEpoch - parentEpoch) /\
      forall (k : nat) (e : BeaconEntry),
        fetched !! k = Some e ->
        Round e = MaxBeaconRoundForEpoch b nv (currEpoch - Z.of_nat k).
Proof.
  intros Hp Hrf.
  induction fuel as [|fuel IH]; intros currEpoch out out' s s' Hc Hrun;
    destruct (Z_le_gt_dec currEpoch parentEpoch) as [Hle|Hgt].
  - rewrite fetchLoop_exit in Hrun by done. simplify_eq.
    exists []. rewrite app_nil_r. split_and!; [done|simpl; lia|done].
  - simpl in Hrun.
    by destruct (Z.gtb_spec currEpoch parentEpoch) as [_|?]; [|lia].
  - rewrite fetchLoop_exit in Hrun by done. simplify_eq.
    exists []. rewrite app_nil_r. split_and!; [done|simpl; lia|done].
  - rewrite fetchLoop_step in Hrun by lia. cbv zeta in Hrun.
    destruct (Done ctx _); [done|].
    destruct (Err _) eqn:Herr; [done|].
    rewrite (epochDec_no_wrap parentEpoch) in Hrun by (done || lia).
    apply IH in Hrun as (fetched & -> & Hlen & Hrounds);
      [|unfold in_int64 in *; lia].
    eexists (_ :: fetched). split_and!.
    + by rewrite <- app_assoc.
    + simpl. rewrite Hlen. lia.
    + intros [|k] e He; simpl in He.
      * simplify_eq. rewrite Z.sub_0_r. by apply Hrf.
      * rewrite (Hrounds k e He). f_equal. lia.
Qed.

(** Whatever the epoch awaited, the error of a cancelled loop names the
    [epoch] argument of [BeaconEntriesForBlock]. *)
Lemma fetchLoop_cancelled ctx b (nv : Version)
    (epoch parentEpoch : ChainEpoch) :
  in_int64 parentEpoch ->
  forall (currEpoch : ChainEpoch) (w : World) (e : ChainEpoch)
         (cause : string),
    cancelledAt ctx b nv parentEpoch currEpoch w e cause ->
    forall (fuel : nat) (out : list BeaconEntry) s,
      world s = w -> in_int64 currEpoch ->
      (Z.to_nat (currEpoch - parentEpoch) <= fuel)%nat ->
      exists s',
        fetchLoop fuel ctx b nv epoch parentEpoch currEpoch out s
        = (Fail (ErrContextTimedOut epoch cause), s').
Proof.
  intros Hp currEpoch w e cause Hc.
  induction Hc as [currEpoch w cause Hlt Hdone
                  |currEpoch w e cause Hlt Hdone Herr Hc IH];
    intros fuel out s Hw Hr Hfuel;
    (destruct fuel as [|fuel]; [lia|]);
    rewrite fetchLoop_step by done; cbv zeta; subst w;
    unfold requested at 1; simpl; rewrite Hdone.
  - by eexists.
  - rewrite Herr. apply IH.
    + done.
    + rewrite (epochDec_no_wrap parentEpoch) by done.
      unfold in_int64 in *; lia.
    + rewrite (epochDec_no_wrap parentEpoch) by done. lia.
Qed.
End Fetch.

(** ** The two entry points *)

Section Claims.
Context {World B Schedule : Type} `{RandomBeacon World B Schedule}.

Implicit Types (b : B) (s : state World B) (ctx : Ctx World)
  (bSchedule : Schedule) (nv : Version) (h : BlockHeader).

Lemma forkCase_same bSchedule (parentEpoch epoch : ChainEpoch) :
  BeaconForEpoch bSchedule parentEpoch = BeaconForEpoch bSchedule epoch ->
  forkCase bSchedule parentEpoch epoch = false.
Proof.
  intros Heq. unfold forkCase. by rewrite bool_decide_eq_false_2 by auto.
Qed.

Lemma forkCase_unchained bSchedule (parentEpoch epoch : ChainEpoch) :
  IsChained (BeaconForEpoch bSchedule epoch) = false ->
  forkCase bSchedule parentEpoch epoch = false.
Proof. intros Hu. unfold forkCase. rewrite Hu. apply andb_false_r. Qed.

(** The non-fork path of the producer when entries are due. *)
Lemma BeaconEntriesForBlock_nonfork ctx bSchedule nv
    (epoch parentEpoch : ChainEpoch) (prev : BeaconEntry) s :
  forkCase bSchedule parentEpoch epoch = false ->
  MaxBeaconRoundForEpoch (BeaconForEpoch bSchedule epoch) nv epoch
  <> Round prev ->
  BeaconEntriesForBlock ctx bSchedule nv epoch parentEpoch prev s =
    match fetchLoop (Z.to_nat (epoch - parentEpoch)) ctx
            (BeaconForEpoch bSchedule epoch) nv epoch parentEpoch epoch [] s
    with
    | (Ok out, s') => (Ok (rev out), s')
    | (Fail e, s') => (Fail e, s')
    | (Panic, s') => (Panic, s')
    | (Stuck, s') => (Stuck, s')
    end.
Proof.
  intros Hnf Hne. unfold BeaconEntriesForBlock.
  unfold forkCase in Hnf. rewrite Hnf.
  destruct (Z.eqb_spec
    (MaxBeaconRoundForEpoch (BeaconForEpoch bSchedule epoch) nv epoch)
    (Round prev)) as [?|_]; [done|].
  unfold bind. destruct (fetchLoop _ _ _ _ _ _ _ _ _) as [[out| | |] s'];
    [apply reverse_rev|done..].
Qed.

(** The producer returns: it yields a slice or an error. *)
Lemma BeaconEntriesForBlock_returns ctx bSchedule nv
    (epoch parentEpoch : ChainEpoch) (prev : BeaconEntry) s :
  in_int64 parentEpoch -> in_int64 epoch ->
  (exists out s',
     BeaconEntriesForBlock ctx bSchedule nv epoch parentEpoch prev s
     = (Ok out, s')) \/
  (exists e s',
     BeaconEntriesForBlock ctx bSchedule nv epoch parentEpoch prev s
     = (Fail e, s')).
Proof.
  intros Hp He.
  destruct (forkCase bSchedule parentEpoch epoch) eqn:Hf.
  - unfold BeaconEntriesForBlock. unfold forkCase in Hf. rewrite Hf.
    unfold bind, recv, ret, fail. rewrite !callEntry_run.
    destruct (Err _); [right; by eauto|].
    rewrite callEntry_run.
    destruct (Err _); [right; by eauto|left; by eauto].
  - destruct (Z.eq_dec
      (MaxBeaconRoundForEpoch (BeaconForEpoch bSchedule epoch) nv epoch)
      (Round prev)) as [Heq|Hne].
    + left. unfold BeaconEntriesForBlock. unfold forkCase in Hf.
      rewrite Hf, Heq, Z.eqb_refl. by eauto.
    + rewrite BeaconEntriesForBlock_nonfork by done.
      destruct (fetchLoop_returns ctx (BeaconForEpoch bSchedule epoch) nv
                  epoch parentEpoch Hp (Z.to_nat (epoch - parentEpoch))
                  epoch [] s He ltac:(lia))
        as [(out & s' & ->)|(e & s' & ->)]; [left|right]; by eauto.
Qed.

(** A successful non-fork call returns one entry per epoch of
    [(parentEpoch, epoch]], oldest first. *)
Lemma BeaconEntriesForBlock_nonfork_ok ctx bSchedule nv
    (epoch parentEpoch : ChainEpoch) (prev : BeaconEntry)
    (out : list BeaconEntry) s s' :
  forkCase bSchedule parentEpoch epoch = false ->
  MaxBeaconRoundForEpoch (BeaconForEpoch bSchedule epoch) nv epoch
  <> Round prev ->
  in_int64 parentEpoch -> in_int64 epoch ->
  roundFaithful (BeaconForEpoch bSchedule epoch) ->
  BeaconEntriesForBlock ctx bSchedule nv epoch parentEpoch prev s
  = (Ok out, s') ->
  length out = Z.to_nat (epoch - parentEpoch) /\
  forall (k : nat) (e : BeaconEntry),
    out !! k = Some e ->
    Round e = MaxBeaconRoundForEpoch (BeaconForEpoch bSchedule epoch) nv
                (parentEpoch + Z.of_nat k + 1).
Proof.
  intros Hnf Hne Hp He Hrf Hrun.
  rewrite BeaconEntriesForBlock_nonfork in Hrun by done.
  destruct (fetchLoop _ _ _ _ _ _ _ _ _) as [[out0| | |] s0] eqn:Hloop;
    [|done..].
  simplify_eq.
  apply (fetchLoop_ok _ _ _ _ _ Hp Hrf) in Hloop
    as (fetched & -> & Hlen & Hrounds); [|done].
  simpl. rewrite length_rev. split; [done|].
  intros k e Hk. rewrite rev_alt in Hk.
  change (rev_append fetched []) with (list.reverse fetched) in Hk.
  apply reverse_lookup_Some in Hk as [Hk Hlt].
  rewrite (Hrounds _ _ Hk). f_equal. lia.
Qed.

(** *** Paths of the validator *)

Lemma ValidateBlockValues_fork bSchedule nv h (parentEpoch : ChainEpoch)
    (prevEntry : BeaconEntry) s :
  forkCase bSchedule parentEpoch (Height h) = true ->
  ValidateBlockValues bSchedule nv h parentEpoch prevEntry s =
    match BeaconEntries h with
    | [e0; e1] =>
        (match VerifyEntry (BeaconForEpoch bSchedule (Height h)) e1 (Data e0)
         with
         | Some err => Fail (ErrForkInvalid e1 e0 err)
         | None => Ok tt
         end,
         logged s [EvVerify (BeaconForEpoch bSchedule (Height h)) e1
                     (Data e0)])
    | es => (Fail (ErrForkCount (length es)), s)
    end.
Proof.
  intros Hf. unfold ValidateBlockValues. unfold forkCase in Hf. rewrite Hf.
  destruct (BeaconEntries h) as [|e0 [|e1 [|e2 es]]]; try done.
  unfold bind, index, callVerifyEntry, emit, ret, fail, logged. simpl.
  by destruct (VerifyEntry _ _ _).
Qed.

Lemma ValidateBlockValues_none_due bSchedule nv h (parentEpoch : ChainEpoch)
    (prevEntry : BeaconEntry) s :
  forkCase bSchedule parentEpoch (Height h) = false ->
  MaxBeaconRoundForEpoch (BeaconForEpoch bSchedule (Height h)) nv (Height h)
  = Round prevEntry ->
  ValidateBlockValues bSchedule nv h parentEpoch prevEntry s =
    match BeaconEntries h with
    | [] => (Ok tt, s)
    | es => (Fail (ErrUnexpectedEntries (length es)), s)
    end.
Proof.
  intros Hnf Heq. unfold ValidateBlockValues.
  unfold forkCase in Hnf. rewrite Hnf, Heq, Z.eqb_refl.
  by destruct (BeaconEntries h).
Qed.

Lemma ValidateBlockValues_due bSchedule nv h (parentEpoch : ChainEpoch)
    (prevEntry : BeaconEntry) s :
  forkCase bSchedule parentEpoch (Height h) = false ->
  MaxBeaconRoundForEpoch (BeaconForEpoch bSchedule (Height h)) nv (Height h)
  <> Round prevEntry ->
  ValidateBlockValues bSchedule nv h parentEpoch prevEntry s =
    let currBeacon := BeaconForEpoch bSchedule (Height h) in
    let maxRound := MaxBeaconRoundForEpoch currBeacon nv (Height h) in
    match last (BeaconEntries h) with
    | None => (Fail ErrNoEntries, s)
    | Some l =>
        if IsChained currBeacon && (Round prevEntry =? 0) then (Ok tt, s)
        else if negb (Round l =? maxRound) then
          (Fail (ErrFinalRound maxRound (Round l)), s)
        else if IsChained currBeacon then
          verifyEntries currBeacon 0 (BeaconEntries h) prevEntry s
        else
          match checkRounds currBeacon nv parentEpoch 0 (BeaconEntries h) s
          with
          | (Ok _, s1) =>
              verifyEntries currBeacon 0 (BeaconEntries h) prevEntry s1
          | (Fail e, s1) => (Fail e, s1)
          | (Panic, s1) => (Panic, s1)
          | (Stuck, s1) => (Stuck, s1)
          end
    end.
Proof.
  intros Hnf Hne. unfold ValidateBlockValues.
  unfold forkCase in Hnf. rewrite Hnf.
  destruct (Z.eqb_spec
    (MaxBeaconRoundForEpoch (BeaconForEpoch bSchedule (Height h)) nv
       (Height h)) (Round prevEntry)) as [?|_]; [done|].
  cbv zeta. rewrite last_lookup.
  destruct (Nat.eqb_spec (length (BeaconEntries h)) 0) as [Hz|Hnz].
  - rewrite Hz. simpl. by destruct (BeaconEntries h).
  - replace (pred (length (BeaconEntries h)))
      with (length (BeaconEntries h) - 1)%nat by lia.
    destruct (lookup_lt_is_Some_2 (BeaconEntries h)
                (length (BeaconEntries h) - 1)%nat ltac:(lia)) as [l Hl].
    rewrite Hl.
    destruct (IsChained (BeaconForEpoch bSchedule (Height h)) &&
              (Round prevEntry =? 0)) eqn:Hby; [done|].
    unfold bind at 1. unfold index. rewrite Hl. unfold ret at 1.
    destruct (negb (Round l =? _)); [done|].
    by destruct (IsChained (BeaconForEpoch bSchedule (Height h))).
Qed.

(** The conditions under which the validator reaches the verification
    loop, and then does nothing else. *)
Lemma ValidateBlockValues_verifies bSchedule nv h (parentEpoch : ChainEpoch)
    (prevEntry l : BeaconEntry) s :
  let currBeacon := BeaconForEpoch bSchedule (Height h) in
  let maxRound := MaxBeaconRoundForEpoch currBeacon nv (Height h) in
  forkCase bSchedule parentEpoch (Height h) = false ->
  maxRound <> Round prevEntry ->
  IsChained currBeacon && (Round prevEntry =? 0) = false ->
  last (BeaconEntries h) = Some l -> Round l = maxRound ->
  (IsChained currBeacon = false ->
   roundsAsExpected currBeacon nv parentEpoch 0 (BeaconEntries h)) ->
  ValidateBlockValues bSchedule nv h parentEpoch prevEntry s
  = verifyEntries currBeacon 0 (BeaconEntries h) prevEntry s.
Proof.
  intros currBeacon maxRound Hnf Hne Hby Hl Hlast Hrounds.
  rewrite ValidateBlockValues_due by done. cbv zeta.
  fold currBeacon. fold maxRound. rewrite Hl, Hby, Hlast, Z.eqb_refl.
  simpl. destruct (IsChained currBeacon) eqn:Hch; [done|].
  by rewrite (checkRounds_ok _ _ _ _ _ _ (Hrounds eq_refl)).
Qed.
(** A cancelled non-fork call fails with the cancellation cause and the
    [epoch] argument, whichever epoch was awaited. *)
Lemma BeaconEntriesForBlock_cancelled ctx bSchedule nv
    (epoch parentEpoch e : ChainEpoch) (prev : BeaconEntry)
    (cause : string) s :
  forkCase bSchedule parentEpoch epoch = false ->
  MaxBeaconRoundForEpoch (BeaconForEpoch bSchedule epoch) nv epoch
  <> Round prev ->
  in_int64 parentEpoch -> in_int64 epoch ->
  cancelledAt ctx (BeaconForEpoch bSchedule epoch) nv parentEpoch
    epoch (world s) e cause ->
  exists s',
    BeaconEntriesForBlock ctx bSchedule nv epoch parentEpoch prev s
    = (Fail (ErrContextTimedOut epoch cause), s').
Proof.
  intros Hnf Hne Hp He Hc.
  rewrite BeaconEntriesForBlock_nonfork by done.
  destruct (fetchLoop_cancelled ctx _ nv epoch parentEpoch Hp _ _ _ _ Hc
              (Z.to_nat (epoch - parentEpoch)) [] s eq_refl He ltac:(lia))
    as [s' ->].
  by eexists.
Qed.

(** The fork branch of the producer. *)
Lemma BeaconEntriesForBlock_fork ctx bSchedule nv
    (epoch parentEpoch : ChainEpoch) (prev : BeaconEntry) s :
  let b := BeaconForEpoch bSchedule epoch in
  let round := MaxBeaconRoundForEpoch b nv epoch in
  let first := Entry b ctx (wrapU64 (round - 1)) (world s) in
  let second := Entry b ctx round first.2 in
  forkCase bSchedule parentEpoch epoch = true ->
  BeaconEntriesForBlock ctx bSchedule nv epoch parentEpoch prev s
  = match Err first.1, Err second.1 with
    | Some err, _ =>
        (Fail (ErrGettingEntry (wrapU64 (round - 1)) err),
         {| world := first.2;
            trace := trace s ++ [EvEntry b (wrapU64 (round - 1))] |})
    | None, Some err =>
        (Fail (ErrGettingEntry round err),
         {| world := second.2;
            trace := trace s ++ [EvEntry b (wrapU64 (round - 1));
                                 EvEntry b round] |})
    | None, None =>
        (Ok [Entry_ first.1; Entry_ second.1],
         {| world := second.2;
            trace := trace s ++ [EvEntry b (wrapU64 (round - 1));
                                 EvEntry b round] |})
    end.
Proof.
  intros b round first second Hf.
  unfold BeaconEntriesForBlock. unfold forkCase in Hf. rewrite Hf.
  fold b. fold round. unfold bind at 1. rewrite callEntry_run.
  fold first. unfold bind at 1. unfold recv at 1. unfold ret at 1.
  destruct (Err first.1); [done|].
  unfold bind at 1. rewrite callEntry_run. unfold requested at 1 2.
  cbn [world trace]. fold first. fold second.
  unfold bind at 1. unfold recv at 1. unfold ret at 1.
  destruct (Err second.1); unfold fail, ret, requested; cbn [world trace];
    by rewrite <- app_assoc.
Qed.
End Claims.

(** ** Properties of the specification *)

Section Properties.
Context {World B Schedule : Type} `{RandomBeacon World B Schedule}.

Implicit Types (b : B) (s : state World B) (ctx : Ctx World)
  (bSchedule : Schedule) (nv : Version) (h : BlockHeader).

(** C1 (validator/producer duality): when one unchained beacon governs
    both [parentEpoch] and [epoch], with [parentEpoch < epoch], the
    entries that [BeaconEntriesForBlock] returns (each carrying the round
    that was requested) are accepted by [ValidateBlockValues] for a block
    at [epoch] with the same schedule, version, parent epoch and previous
    entry, as soon as [VerifyEntry] accepts each of them after its
    predecessor. *)
Theorem C1_validator_accepts_produced_entries ctx bSchedule nv
    (epoch parentEpoch : ChainEpoch) (prev : BeaconEntry)
    (out : list BeaconEntry) s s' (s2 : state World B) :
  BeaconForEpoch bSchedule parentEpoch = BeaconForEpoch bSchedule epoch ->
  IsChained (BeaconForEpoch bSchedule epoch) = false ->
  parentEpoch < epoch ->
  in_int64 parentEpoch -> in_int64 epoch ->
  roundFaithful (BeaconForEpoch bSchedule epoch) ->
  BeaconEntriesForBlock ctx bSchedule nv epoch parentEpoch prev s
  = (Ok out, s') ->
  chainVerified (BeaconForEpoch bSchedule epoch) prev out ->
  ValidateBlockValues bSchedule nv
    {| Height := epoch; BeaconEntries := out |} parentEpoch prev s2
  = (Ok tt,
     logged s2 (chainCalls (BeaconForEpoch bSchedule epoch) prev out)).
Proof.
  intros Hsame Hu Hlt Hp He Hrf Hrun Hver.
  pose proof (forkCase_same _ _ _ Hsame) as Hnf.
  destruct (Z.eq_dec
    (MaxBeaconRoundForEpoch (BeaconForEpoch bSchedule epoch) nv epoch)
    (Round prev)) as [Heq|Hne].
  - rewrite ValidateBlockValues_none_due by done.
    unfold BeaconEntriesForBlock in Hrun. unfold forkCase in Hnf.
    rewrite Hnf, Heq, Z.eqb_refl in Hrun.
    unfold ret in Hrun. simplify_eq. simpl. by rewrite logged_nil.
  - destruct (BeaconEntriesForBlock_nonfork_ok _ _ _ _ _ _ _ _ _
                Hnf Hne Hp He Hrf Hrun) as [Hlen Hrounds].
    destruct (lookup_lt_is_Some_2 out (pred (length out)) ltac:(lia))
      as [l Hl].
    rewrite (ValidateBlockValues_verifies _ _ _ _ _ l); simpl;
      [by apply verifyEntries_ok|done|done|by rewrite Hu
      |by rewrite last_lookup| |].
    + rewrite (Hrounds _ _ Hl). f_equal. lia.
    + intros _ k e Hk. rewrite (Hrounds _ _ Hk). f_equal. symmetry.
      apply lookup_lt_Some in Hk.
      apply epoch_of_position. unfold in_int64 in *. lia.
Qed.

(** C4 (no-op epoch): outside the fork case, when the maximal round of
    [epoch] is the round of [prev], the producer returns the empty
    sequence without error and without any request, and the validator
    accepts the block without entries and rejects every block with
    entries. *)
Theorem C4_no_entries_due ctx bSchedule nv (epoch parentEpoch : ChainEpoch)
    (prev : BeaconEntry) s :
  forkCase bSchedule parentEpoch epoch = false ->
  MaxBeaconRoundForEpoch (BeaconForEpoch bSchedule epoch) nv epoch
  = Round prev ->
  BeaconEntriesForBlock ctx bSchedule nv epoch parentEpoch prev s
  = (Ok [], s) /\
  ValidateBlockValues bSchedule nv
    {| Height := epoch; BeaconEntries := [] |} parentEpoch prev s
  = (Ok tt, s) /\
  forall es : list BeaconEntry, es <> [] ->
    ValidateBlockValues bSchedule nv
      {| Height := epoch; BeaconEntries := es |} parentEpoch prev s
    = (Fail (ErrUnexpectedEntries (length es)), s).
Proof.
  intros Hnf Heq. split_and!.
  - unfold BeaconEntriesForBlock. unfold forkCase in Hnf.
    by rewrite Hnf, Heq, Z.eqb_refl.
  - by rewrite ValidateBlockValues_none_due.
  - intros es Hes. rewrite ValidateBlockValues_none_due by done.
    simpl. by destruct es.
Qed.

(** C7, as the code has it: a successful non-fork call returns the
    entries in ascending epoch order, the one at position [k] carrying
    the round of epoch [parentEpoch + k + 1]; the rounds are therefore
    non-decreasing when [MaxBeaconRoundForEpoch] is non-decreasing over
    these epochs, and strictly increasing when it is strictly
    increasing over them. *)
Theorem C7_entries_in_ascending_epoch_order ctx bSchedule nv
    (epoch parentEpoch : ChainEpoch) (prev : BeaconEntry)
    (out : list BeaconEntry) s s' :
  let b := BeaconForEpoch bSchedule epoch in
  forkCase bSchedule parentEpoch epoch = false ->
  in_int64 parentEpoch -> in_int64 epoch ->
  roundFaithful b ->
  BeaconEntriesForBlock ctx bSchedule nv epoch parentEpoch prev s
  = (Ok out, s') ->
  (MaxBeaconRoundForEpoch b nv epoch <> Round prev ->
   length out = Z.to_nat (epoch - parentEpoch) /\
   forall (k : nat) (e : BeaconEntry),
     out !! k = Some e ->
     Round e = MaxBeaconRoundForEpoch b nv (parentEpoch + Z.of_nat k + 1)) /\
  ((forall e1 e2 : ChainEpoch,
      parentEpoch < e1 -> e1 <= e2 -> e2 <= epoch ->
      MaxBeaconRoundForEpoch b nv e1 <= MaxBeaconRoundForEpoch b nv e2) ->
   nonDecreasing (Round <$> out)) /\
  ((forall e1 e2 : ChainEpoch,
      parentEpoch < e1 -> e1 < e2 -> e2 <= epoch ->
      MaxBeaconRoundForEpoch b nv e1 < MaxBeaconRoundForEpoch b nv e2) ->
   strictlyIncreasing (Round <$> out)).
Proof.
  intros b Hnf Hp He Hrf Hrun.
  destruct (Z.eq_dec (MaxBeaconRoundForEpoch b nv epoch) (Round prev))
    as [Heq|Hne].
  - unfold BeaconEntriesForBlock in Hrun. unfold forkCase in Hnf.
    fold b in Hrun, Hnf. rewrite Hnf, Heq, Z.eqb_refl in Hrun.
    unfold ret in Hrun. simplify_eq.
    split_and!; [done|intros _ i j x y _ Hx; done..].
  - destruct (BeaconEntriesForBlock_nonfork_ok _ _ _ _ _ _ _ _ _
                Hnf Hne Hp He Hrf Hrun) as [Hlen Hrounds].
    fold b in Hrounds.
    split_and!; [done|..]; intros Hmono i j x y Hij Hx Hy;
      rewrite list_lookup_fmap in Hx, Hy;
      destruct (out !! i) as [ei|] eqn:Hi; simplify_eq/=;
      destruct (out !! j) as [ej|] eqn:Hj; simplify_eq/=;
      rewrite (Hrounds _ _ Hi), (Hrounds _ _ Hj);
      apply lookup_lt_Some in Hj; apply Hmono; lia.
Qed.

(** C9: in the non-fork path the producer uses [prev] only to compare
    its round with the maximal round of [epoch]: two previous entries
    whose rounds both differ from it lead to the same requests, the same
    result and the same final state.  This covers a [prev] of round 0,
    whose round the code overwrites before the loop. *)
Theorem C9_result_independent_of_prev ctx bSchedule nv
    (epoch parentEpoch : ChainEpoch) (prev1 prev2 : BeaconEntry) s :
  forkCase bSchedule parentEpoch epoch = false ->
  MaxBeaconRoundForEpoch (BeaconForEpoch bSchedule epoch) nv epoch
  <> Round prev1 ->
  MaxBeaconRoundForEpoch (BeaconForEpoch bSchedule epoch) nv epoch
  <> Round prev2 ->
  BeaconEntriesForBlock ctx bSchedule nv epoch parentEpoch prev1 s
  = BeaconEntriesForBlock ctx bSchedule nv epoch parentEpoch prev2 s.
Proof.
  intros Hnf H1 H2. by rewrite !BeaconEntriesForBlock_nonfork.
Qed.

(** C2 (fork, two entries): when the beacons of [parentEpoch] and of the
    block epoch differ and the new one is chained, the validator rejects
    every block whose number of entries is not 2 without verifying
    anything, and for a block with entries [e0; e1] it makes exactly one
    call, [VerifyEntry(e1, e0.data)], whose outcome decides; the producer
    requests round - 1 and then round (in [uint64] arithmetic) from the
    new beacon and returns the two entries received, in that order, or
    the error of the first request that fails. *)
Theorem C2_fork_requires_two_entries ctx bSchedule nv
    (epoch parentEpoch : ChainEpoch) (prev : BeaconEntry) s :
  let b := BeaconForEpoch bSchedule epoch in
  let round := MaxBeaconRoundForEpoch b nv epoch in
  let first := Entry b ctx (wrapU64 (round - 1)) (world s) in
  let second := Entry b ctx round first.2 in
  BeaconForEpoch bSchedule parentEpoch <> b ->
  IsChained b = true ->
  (forall es : list BeaconEntry, length es <> 2%nat ->
     ValidateBlockValues bSchedule nv
       {| Height := epoch; BeaconEntries := es |} parentEpoch prev s
     = (Fail (ErrForkCount (length es)), s)) /\
  (forall e0 e1 : BeaconEntry,
     ValidateBlockValues bSchedule nv
       {| Height := epoch; BeaconEntries := [e0; e1] |} parentEpoch prev s
     = (match VerifyEntry b e1 (Data e0) with
        | Some err => Fail (ErrForkInvalid e1 e0 err)
        | None => Ok tt
        end,
        logged s [EvVerify b e1 (Data e0)])) /\
  BeaconEntriesForBlock ctx bSchedule nv epoch parentEpoch prev s
  = match Err first.1, Err second.1 with
    | Some err, _ =>
        (Fail (ErrGettingEntry (wrapU64 (round - 1)) err),
         {| world := first.2;
            trace := trace s ++ [EvEntry b (wrapU64 (round - 1))] |})
    | None, Some err =>
        (Fail (ErrGettingEntry round err),
         {| world := second.2;
            trace := trace s ++ [EvEntry b (wrapU64 (round - 1));
                                 EvEntry b round] |})
    | None, None =>
        (Ok [Entry_ first.1; Entry_ second.1],
         {| world := second.2;
            trace := trace s ++ [EvEntry b (wrapU64 (round - 1));
                                 EvEntry b round] |})
    end.
Proof.
  intros b round first second Hdiff Hch.
  assert (forkCase bSchedule parentEpoch epoch = true) as Hf.
  { unfold forkCase. fold b. by rewrite Hch, bool_decide_eq_true_2. }
  split_and!.
  - intros es Hlen. rewrite ValidateBlockValues_fork by done. simpl.
    by destruct es as [|e0 [|e1 [|e2 es]]].
  - intros e0 e1. by rewrite ValidateBlockValues_fork.
  - by apply BeaconEntriesForBlock_fork.
Qed.

(** C10: in the fork branch the first round requested is [round - 1]
    computed on [uint64]; when the maximal round of the fork epoch is 0
    the producer does not fail beforehand and its first request is for
    round 2^64 - 1. *)
Theorem C10_fork_round_wraps ctx bSchedule nv
    (epoch parentEpoch : ChainEpoch) (prev : BeaconEntry) s :
  let b := BeaconForEpoch bSchedule epoch in
  BeaconForEpoch bSchedule parentEpoch <> b ->
  IsChained b = true ->
  MaxBeaconRoundForEpoch b nv epoch = 0 ->
  exists later : list (event B),
    trace (BeaconEntriesForBlock ctx bSchedule nv epoch parentEpoch prev s).2
    = trace s ++ EvEntry b (2 ^ 64 - 1) :: later.
Proof.
  intros b Hdiff Hch Hzero.
  rewrite BeaconEntriesForBlock_fork
    by (unfold forkCase; fold b; by rewrite Hch, bool_decide_eq_true_2).
  cbv zeta. fold b. rewrite Hzero, wrapU64_pred_zero.
  destruct (Err _); [by exists []|].
  destruct (Err _); by exists [EvEntry b 0].
Qed.

(** C3, as the code has it: with one chained beacon governing both the
    parent and the block epoch and a previous entry of round 0, the
    validator accepts every block that carries at least one entry,
    whatever the rounds and data of its entries and without any
    verification, provided the maximal round of the block epoch is not
    0; under the same conditions a block without entries is rejected.
    When the maximal round is 0 no entry is due. *)
Theorem C3_genesis_bypass bSchedule nv h (parentEpoch : ChainEpoch)
    (prevEntry : BeaconEntry) s :
  let b := BeaconForEpoch bSchedule (Height h) in
  BeaconForEpoch bSchedule parentEpoch = b ->
  IsChained b = true ->
  Round prevEntry = 0 ->
  (MaxBeaconRoundForEpoch b nv (Height h) <> 0 ->
   BeaconEntries h <> [] ->
   ValidateBlockValues bSchedule nv h parentEpoch prevEntry s = (Ok tt, s))
  /\
  (MaxBeaconRoundForEpoch b nv (Height h) <> 0 ->
   BeaconEntries h = [] ->
   ValidateBlockValues bSchedule nv h parentEpoch prevEntry s
   = (Fail ErrNoEntries, s))
  /\
  (MaxBeaconRoundForEpoch b nv (Height h) = 0 ->
   ValidateBlockValues bSchedule nv h parentEpoch prevEntry s
   = match BeaconEntries h with
     | [] => (Ok tt, s)
     | es => (Fail (ErrUnexpectedEntries (length es)), s)
     end).
Proof.
  intros b Hsame Hch Hzero.
  pose proof (forkCase_same _ _ _ Hsame) as Hnf.
  split_and!.
  - intros Hmax Hes.
    rewrite ValidateBlockValues_due by (by rewrite ?Hzero).
    cbv zeta. fold b. rewrite Hch, Hzero. simpl.
    destruct (last (BeaconEntries h)) eqn:Hl; [done|].
    by apply last_None in Hl.
  - intros Hmax Hes.
    rewrite ValidateBlockValues_due by (by rewrite ?Hzero).
    cbv zeta. by rewrite Hes.
  - intros Hmax. apply ValidateBlockValues_none_due; [done|].
    fold b. by rewrite Hmax, Hzero.
Qed.

(** C5 (round check of an unchained beacon): past the fork, no-op and
    emptiness checks, a block whose last entry does not carry the
    maximal round of the block epoch is rejected; for an unchained
    beacon a block is moreover rejected at the first position [k] whose
    round is not the maximal round of epoch [parentEpoch + k + 1], so
    that an accepted block has the expected round at every position; for
    a chained beacon (with a previous entry of non-zero round) nothing
    is checked per position and the validator goes on with the
    verification of the entries.  The epoch of a position is computed on
    [int64]; it is [parentEpoch + k + 1] whenever that is
    representable. *)
Theorem C5_unchained_round_check bSchedule nv h (parentEpoch : ChainEpoch)
    (prevEntry l : BeaconEntry) s :
  let b := BeaconForEpoch bSchedule (Height h) in
  let maxRound := MaxBeaconRoundForEpoch b nv (Height h) in
  let epochAt := fun k : nat =>
    epochAdd (epochAdd parentEpoch (epochOfIndex k)) 1 in
  forkCase bSchedule parentEpoch (Height h) = false ->
  maxRound <> Round prevEntry ->
  last (BeaconEntries h) = Some l ->
  (IsChained b && (Round prevEntry =? 0) = false ->
   Round l <> maxRound ->
   ValidateBlockValues bSchedule nv h parentEpoch prevEntry s
   = (Fail (ErrFinalRound maxRound (Round l)), s)) /\
  (IsChained b = false -> Round l = maxRound ->
   forall (k : nat) (e : BeaconEntry),
     BeaconEntries h !! k = Some e ->
     Round e <> MaxBeaconRoundForEpoch b nv (epochAt k) ->
     (forall (j : nat) (e' : BeaconEntry),
        (j < k)%nat -> BeaconEntries h !! j = Some e' ->
        Round e' = MaxBeaconRoundForEpoch b nv (epochAt j)) ->
     ValidateBlockValues bSchedule nv h parentEpoch prevEntry s
     = (Fail (ErrUnexpectedRound (Round e)
                (MaxBeaconRoundForEpoch b nv (epochAt k))
                (epochAdd parentEpoch (epochOfIndex k))), s)) /\
  (IsChained b = false ->
   (ValidateBlockValues bSchedule nv h parentEpoch prevEntry s).1 = Ok tt ->
   Round l = maxRound /\
   forall (k : nat) (e : BeaconEntry),
     BeaconEntries h !! k = Some e ->
     Round e = MaxBeaconRoundForEpoch b nv (epochAt k)) /\
  (IsChained b = true -> Round prevEntry <> 0 -> Round l = maxRound ->
   ValidateBlockValues bSchedule nv h parentEpoch prevEntry s
   = verifyEntries b 0 (BeaconEntries h) prevEntry s) /\
  (forall k : nat,
     in_int64 (parentEpoch + Z.of_nat k + 1) ->
     epochAt k = parentEpoch + Z.of_nat k + 1).
Proof.
  intros b maxRound epochAt Hnf Hne Hl.
  split_and!.
  - intros Hby Hlast. rewrite ValidateBlockValues_due by done.
    cbv zeta. fold b. fold maxRound. rewrite Hl, Hby.
    by destruct (Z.eqb_spec (Round l) maxRound).
  - intros Hu Hlast k e Hk Hbad Hbefore.
    rewrite ValidateBlockValues_due by done.
    cbv zeta. fold b. fold maxRound.
    rewrite Hl, Hu, Hlast, Z.eqb_refl. simpl.
    rewrite (checkRounds_fail b nv parentEpoch _ 0 k e); [done|done|done|].
    intros j e' He'. apply lookup_take_Some in He' as [He' Hj].
    by apply Hbefore.
  - intros Hu Hok. rewrite ValidateBlockValues_due in Hok by done.
    cbv zeta in Hok. fold b in Hok. fold maxRound in Hok.
    rewrite Hl, Hu in Hok. simpl in Hok.
    destruct (Z.eqb_spec (Round l) maxRound) as [Hlast|?]; [|done].
    split; [done|]. simpl in Hok.
    destruct (checkRounds b nv parentEpoch 0 (BeaconEntries h) s)
      as [[[]| | |] s1] eqn:Hcheck; try done.
    intros k e Hk.
    by rewrite (checkRounds_inv _ _ _ _ _ _ _ Hcheck k e Hk).
  - intros Hch Hprev Hlast.
    apply (ValidateBlockValues_verifies _ _ _ _ _ l); try done.
    + fold b. rewrite Hch. simpl. by apply Z.eqb_neq.
    + fold b. by rewrite Hch.
  - intros k Hk. by apply epoch_of_position.
Qed.

End Properties.

(** ** The properties on concrete runs *)

(** C8: the loop is cancelled while it awaits the entry of epoch 12, the
    second of the epochs 13, 12, 11 it goes through, and the error names
    epoch 13, the [epoch] argument, with the cancellation cause. *)
Theorem C8_cancellation_names_target_epoch :
  forkCase testSchedule 10 13 = false /\
  cancelledAt (deadlineAfter 2) mainBeacon 0 10 13 0%nat 12
    "context deadline exceeded" /\
  BeaconEntriesForBlock (deadlineAfter 2) testSchedule 0 13 10 (entry 10) start
  = (Fail (ErrContextTimedOut 13 "context deadline exceeded"),
     {| world := 2%nat;
        trace := [EvEntry mainBeacon 13; EvEntry mainBeacon 12] |}).
Proof.
  split_and!; [reflexivity| |by vm_compute].
  apply cancelled_later; [done|reflexivity|reflexivity|].
  change (epochDec 13) with 12.
  apply cancelled_now; [done|reflexivity].
Qed.

(** The scenarios of the specification: an unchained beacon whose maximal
    round is the epoch, between epochs 10 and 13; a chained beacon taking
    over at epoch 100. *)
Example producer_between_10_and_13 :
  BeaconEntriesForBlock background testSchedule 0 13 10 (entry 10) start
  = (Ok [entry 11; entry 12; entry 13],
     {| world := 3%nat;
        trace := [EvEntry mainBeacon 13; EvEntry mainBeacon 12;
                  EvEntry mainBeacon 11] |}).
Proof. by vm_compute. Qed.

Example validator_rejects_descending_rounds :
  ValidateBlockValues testSchedule 0
    {| Height := 13; BeaconEntries := [entry 13; entry 12; entry 11] |}
    10 (entry 10) start
  = (Fail (ErrFinalRound 13 11), start).
Proof. by vm_compute. Qed.

Example validator_accepts_two_entries_at_fork :
  ValidateBlockValues testSchedule 0
    {| Height := 100; BeaconEntries := [entry 98; entry 99] |}
    99 (entry 49) start
  = (Ok tt, logged start [EvVerify chainBeacon (entry 99) []]).
Proof. by vm_compute. Qed.

Example validator_rejects_three_entries_at_fork :
  ValidateBlockValues testSchedule 0
    {| Height := 100; BeaconEntries := [entry 98; entry 99; entry 100] |}
    99 (entry 49) start
  = (Fail (ErrForkCount 3), start).
Proof. by vm_compute. Qed.

Lemma C1_witness :
  ValidateBlockValues testSchedule 0
    {| Height := 13; BeaconEntries := [entry 11; entry 12; entry 13] |}
    10 (entry 10) start
  = (Ok tt,
     logged start
       (chainCalls mainBeacon (entry 10) [entry 11; entry 12; entry 13])).
Proof.
  change mainBeacon with (BeaconForEpoch testSchedule 13).
  apply (C1_validator_accepts_produced_entries background testSchedule 0
           13 10 (entry 10) [entry 11; entry 12; entry 13] start
           {| world := 3%nat;
              trace := [EvEntry mainBeacon 13; EvEntry mainBeacon 12;
                        EvEntry mainBeacon 11] |} start).
  - reflexivity.
  - reflexivity.
  - reflexivity.
  - unfold in_int64. lia.
  - unfold in_int64. lia.
  - intros ctx round w _. reflexivity.
  - vm_compute. reflexivity.
  - intros [|[|[|k]]] e p He Hp; simpl in He, Hp; simplify_eq; reflexivity.
Defined.

Lemma C2_witness :
  BeaconEntriesForBlock background testSchedule 0 100 99 (entry 49) start
  = (Ok [entry 99; entry 100],
     {| world := 2%nat;
        trace := [EvEntry chainBeacon 99; EvEntry chainBeacon 100] |}).
Proof.
  destruct (C2_fork_requires_two_entries background testSchedule 0 100 99
              (entry 49) start) as (_ & _ & Hprod).
  - discriminate.
  - reflexivity.
  - rewrite Hprod. vm_compute. reflexivity.
Defined.

Lemma C3_witness :
  ValidateBlockValues testSchedule 0
    {| Height := 105; BeaconEntries := [entry 7; entry 104] |}
    100 (entry 0) start
  = (Ok tt, start).
Proof.
  destruct (C3_genesis_bypass testSchedule 0
              {| Height := 105; BeaconEntries := [entry 7; entry 104] |}
              100 (entry 0) start) as (Hacc & _ & _).
  - reflexivity.
  - reflexivity.
  - reflexivity.
  - apply Hacc; discriminate.
Defined.

(** C3 as stated fails: one chained beacon governs epochs 100 and 105, the
    previous entry has round 0, and the block without entries is
    rejected. *)
Lemma C3_counterexample :
  BeaconForEpoch testSchedule 100 = BeaconForEpoch testSchedule 105 /\
  IsChained (BeaconForEpoch testSchedule 105) = true /\
  Round (entry 0) = 0 /\
  ValidateBlockValues testSchedule 0
    {| Height := 105; BeaconEntries := [] |} 100 (entry 0) start
  = (Fail ErrNoEntries, start).
Proof. split_and!; reflexivity. Qed.

Lemma C4_witness :
  BeaconEntriesForBlock background testSchedule 0 13 10 (entry 13) start
  = (Ok [], start).
Proof.
  destruct (C4_no_entries_due background testSchedule 0 13 10 (entry 13)
              start) as (Hprod & _ & _).
  - reflexivity.
  - reflexivity.
  - exact Hprod.
Defined.

Lemma C5_witness :
  ValidateBlockValues testSchedule 0
    {| Height := 13; BeaconEntries := [entry 11; entry 13] |}
    10 (entry 10) start
  = (Fail (ErrUnexpectedRound 13 12 11), start).
Proof.
  destruct (C5_unchained_round_check testSchedule 0
              {| Height := 13; BeaconEntries := [entry 11; entry 13] |}
              10 (entry 10) (entry 13) start) as (_ & Hpos & _).
  - reflexivity.
  - discriminate.
  - reflexivity.
  - apply (Hpos eq_refl eq_refl 1%nat (entry 13)).
    + reflexivity.
    + discriminate.
    + intros [|j] e' Hj He'; [|lia]. simpl in He'. simplify_eq. reflexivity.
Defined.



Lemma C7_witness :
  strictlyIncreasing (Round <$> [entry 11; entry 12; entry 13]).
Proof.
  destruct (C7_entries_in_ascending_epoch_order background testSchedule 0
              13 10 (entry 10) [entry 11; entry 12; entry 13] start
              {| world := 3%nat;
                 trace := [EvEntry mainBeacon 13; EvEntry mainBeacon 12;
                           EvEntry mainBeacon 11] |})
    as (_ & _ & Hstrict).
  - reflexivity.
  - unfold in_int64. lia.
  - unfold in_int64. lia.
  - intros ctx round w _. reflexivity.
  - vm_compute. reflexivity.
  - apply Hstrict. intros e1 e2 H1 H12 H2. simpl.
    rewrite !Z.div_1_r. lia.
Defined.

(** C7 as stated fails: a beacon with one round every two epochs (its
    maximal round is non-decreasing in the epoch) serves epochs 31, 32 and
    33 with rounds 15, 16 and 16. *)
Lemma C7_counterexample :
  forkCase testSchedule 30 33 = false /\
  roundFaithful slowBeacon /\
  (forall e1 e2 : ChainEpoch, e1 <= e2 ->
     MaxBeaconRoundForEpoch slowBeacon 0 e1
     <= MaxBeaconRoundForEpoch slowBeacon 0 e2) /\
  exists (out : list BeaconEntry) (s' : state nat TestBeacon),
    BeaconEntriesForBlock background testSchedule 0 33 30 (entry 15) start
    = (Ok out, s') /\
    Round <$> out = [15; 16; 16] /\
    ~ strictlyIncreasing (Round <$> out).
Proof.
  split_and!.
  - reflexivity.
  - intros ctx round w _. reflexivity.
  - intros e1 e2 Hle. simpl.
    pose proof (Z.div_le_mono e1 e2 2 ltac:(lia) Hle). lia.
  - eexists _, _. split_and!.
    + vm_compute. reflexivity.
    + reflexivity.
    + intros Hs. specialize (Hs 1%nat 2%nat 16 16 ltac:(lia) eq_refl eq_refl).
      lia.
Qed.

Lemma C9_witness :
  BeaconEntriesForBlock background testSchedule 0 13 10 (entry 0) start
  = BeaconEntriesForBlock background testSchedule 0 13 10 (entry 10) start.
Proof.
  apply C9_result_independent_of_prev.
  - reflexivity.
  - discriminate.
  - discriminate.
Defined.

Lemma C10_witness :
  exists later : list (event TestBeacon),
    trace (BeaconEntriesForBlock background lateSchedule 0 100 99 (entry 99)
             start).2
    = trace start ++ EvEntry lateBeacon (2 ^ 64 - 1) :: later.
Proof.
  change lateBeacon with (BeaconForEpoch lateSchedule 100).
  apply (C10_fork_round_wraps background lateSchedule 0 100 99 (entry 99)
           start).
  - discriminate.
  - reflexivity.
  - reflexivity.
Defined.

(** ** Further properties of the beacon code *)

(** The requests of [m] iterations of the fetch loop started at
    [currEpoch]: one per epoch, in descending epoch order. *)
Definition requestsDown {World B Schedule : Type}
    `{RandomBeacon World B Schedule} (b : B) (nv : Version)
    (currEpoch : ChainEpoch) (m : nat) : list (event B) :=
  (fun k : nat =>
     EvEntry b (MaxBeaconRoundForEpoch b nv (currEpoch - Z.of_nat k)))
  <$> seq 0 m.



(** The world reached after [k] requests of the fetch loop started at
    [currEpoch] in world [w], and the response to the request that
    follows them. *)
Fixpoint worldAfter {World B Schedule : Type}
    `{RandomBeacon World B Schedule} (ctx : Ctx World) (b : B)
    (nv : Version) (currEpoch : ChainEpoch) (w : World) (k : nat) : World :=
  match k with
  | O => w
  | S k' =>
      worldAfter ctx b nv (currEpoch - 1)
        (Entry b ctx (MaxBeaconRoundForEpoch b nv currEpoch) w).2 k'
  end.

Fixpoint responseAt {World B Schedule : Type}
    `{RandomBeacon World B Schedule} (ctx : Ctx World) (b : B)
    (nv : Version) (currEpoch : ChainEpoch) (w : World) (k : nat)
  : Response :=
  match k with
  | O => (Entry b ctx (MaxBeaconRoundForEpoch b nv currEpoch) w).1
  | S k' =>
      responseAt ctx b nv (currEpoch - 1)
        (Entry b ctx (MaxBeaconRoundForEpoch b nv currEpoch) w).2 k'
  end.

(** Request [k] is answered: the context is not done while the response
    is pending, and the response carries no error. *)
Definition answered {World B Schedule : Type}
    `{RandomBeacon World B Schedule} (ctx : Ctx World) (b : B)
    (nv : Version) (currEpoch : ChainEpoch) (w : World) (k : nat) : Prop :=
  Done ctx (worldAfter ctx b nv currEpoch w (S k)) = None /\
  Err (responseAt ctx b nv currEpoch w k) = None.

(** The entries of the first [m] responses, in the order of the requests. *)
Definition fetched {World B Schedule : Type}
    `{RandomBeacon World B Schedule} (ctx : Ctx World) (b : B)
    (nv : Version) (currEpoch : ChainEpoch) (w : World) (m : nat)
  : list BeaconEntry :=
  (fun k : nat => Entry_ (responseAt ctx b nv currEpoch w k)) <$> seq 0 m.

Lemma wrapS64_range (z : Z) : in_int64 (wrapS64 z).
Proof.
  unfold in_int64, wrapS64.
  pose proof (Z.mod_pos_bound (z + 2 ^ 63) (2 ^ 64) ltac:(lia)). lia.
Qed.

Lemma wrapS64_congr (z : Z) : exists q : Z, z = wrapS64 z + q * 2 ^ 64.
Proof.
  exists ((z + 2 ^ 63) / 2 ^ 64). unfold wrapS64.
  pose proof (Z.div_mod (z + 2 ^ 63) (2 ^ 64) ltac:(lia)). lia.
Qed.

Section More.
Context {World B Schedule : Type} `{RandomBeacon World B Schedule}.

Implicit Types (b : B) (s : state World B) (ctx : Ctx World)
  (bSchedule : Schedule) (nv : Version) (h : BlockHeader)
  (es : list BeaconEntry).

Lemma requestsDown_S b nv (currEpoch : ChainEpoch) (m : nat) :
  requestsDown b nv currEpoch (S m)
  = EvEntry b (MaxBeaconRoundForEpoch b nv currEpoch)
    :: requestsDown b nv (currEpoch - 1) m.
Proof.
  unfold requestsDown. simpl. rewrite Z.sub_0_r. f_equal.
  rewrite <- fmap_S_seq, <- list_fmap_compose.
  apply list_fmap_ext. intros _ k _. simpl. do 2 f_equal. lia.
Qed.



Lemma fetched_S ctx b nv (currEpoch : ChainEpoch) (w : World) (m : nat) :
  fetched ctx b nv currEpoch w (S m)
  = Entry_ (Entry b ctx (MaxBeaconRoundForEpoch b nv currEpoch) w).1
    :: fetched ctx b nv (currEpoch - 1)
         (Entry b ctx (MaxBeaconRoundForEpoch b nv currEpoch) w).2 m.
Proof.
  unfold fetched. simpl. f_equal.
  by rewrite <- fmap_S_seq, <- list_fmap_compose.
Qed.

(** The fetch loop against the responses of the beacon and the
    cancellations of the context: it goes on as long as the requests are
    answered, and stops at the first one that is cancelled or fails. *)
Lemma fetchLoop_run ctx b nv (epoch parentEpoch : ChainEpoch) :
  in_int64 parentEpoch ->
  forall (fuel : nat) (currEpoch : ChainEpoch) (out : list BeaconEntry) s,
    in_int64 currEpoch ->
    (Z.to_nat (currEpoch - parentEpoch) <= fuel)%nat ->
    let n := Z.to_nat (currEpoch - parentEpoch) in
    let after := fun m : nat =>
      {| world := worldAfter ctx b nv currEpoch (world s) m;
         trace := trace s ++ requestsDown b nv currEpoch m |} in
    ((forall k : nat, (k < n)%nat -> answered ctx b nv currEpoch (world s) k) /\
     fetchLoop fuel ctx b nv epoch parentEpoch currEpoch out s
     = (Ok (out ++ fetched ctx b nv currEpoch (world s) n), after n)) \/
    (exists (j : nat) (cause : string),
       (j < n)%nat /\
       (forall k : nat, (k < j)%nat ->
          answered ctx b nv currEpoch (world s) k) /\
       Done ctx (worldAfter ctx b nv currEpoch (world s) (S j)) = Some cause /\
       fetchLoop fuel ctx b nv epoch parentEpoch currEpoch out s
       = (Fail (ErrContextTimedOut epoch cause), after (S j))) \/
    (exists (j : nat) (err : string),
       (j < n)%nat /\
       (forall k : nat, (k < j)%nat ->
          answered ctx b nv currEpoch (world s) k) /\
       Done ctx (worldAfter ctx b nv currEpoch (world s) (S j)) = None /\
       Err (responseAt ctx b nv currEpoch (world s) j) = Some err /\
       fetchLoop fuel ctx b nv epoch parentEpoch currEpoch out s
       = (Fail (ErrEntryRequest err), after (S j))).
Proof.
  intros Hp. induction fuel as [|fuel IH]; intros currEpoch out s Hc Hfuel;
    cbv zeta.
  - left. replace (Z.to_nat (currEpoch - parentEpoch)) with 0%nat by lia.
    split; [lia|]. rewrite fetchLoop_exit by lia.
    unfold fetched, requestsDown. simpl. rewrite !app_nil_r. by destruct s.
  - destruct (Z_le_gt_dec currEpoch parentEpoch) as [Hle|Hgt].
    { left. replace (Z.to_nat (currEpoch - parentEpoch)) with 0%nat by lia.
      split; [lia|]. rewrite fetchLoop_exit by lia.
      unfold fetched, requestsDown. simpl. rewrite !app_nil_r.
      by destruct s. }
    rewrite fetchLoop_step by lia. cbv zeta.
    replace (Z.to_nat (currEpoch - parentEpoch))
      with (S (Z.to_nat (currEpoch - 1 - parentEpoch))) by lia.
    set (round := MaxBeaconRoundForEpoch b nv currEpoch).
    set (w1 := (Entry b ctx round (world s)).2).
    change (world (requested b ctx round s)) with w1.
    destruct (Done ctx w1) as [cause|] eqn:Hdone.
    { right; left. exists 0%nat, cause.
      split_and!; [lia|intros k Hk; lia|done|].
      by rewrite requestsDown_S. }
    destruct (Err (Entry b ctx round (world s)).1) as [err|] eqn:Herr.
    { right; right. exists 0%nat, err.
      split_and!; [lia|intros k Hk; lia|done|done|].
      by rewrite requestsDown_S. }
    rewrite (epochDec_no_wrap parentEpoch) by (done || lia).
    assert (forall k : nat,
              (forall k' : nat, (k' < k)%nat ->
                 answered ctx b nv (currEpoch - 1) w1 k') ->
              forall k' : nat, (k' < S k)%nat ->
                answered ctx b nv currEpoch (world s) k') as Hshift.
    { intros k Hans [|k'] Hk'; [by split|]. apply Hans. lia. }
    assert (forall m : nat,
              {| world := worldAfter ctx b nv (currEpoch - 1) w1 m;
                 trace := trace (requested b ctx round s)
                          ++ requestsDown b nv (currEpoch - 1) m |}
              = {| world := worldAfter ctx b nv currEpoch (world s) (S m);
                   trace := trace s ++ requestsDown b nv currEpoch (S m) |})
      as Hafter.
    { intros m. rewrite requestsDown_S. unfold requested. simpl.
      by rewrite <- app_assoc. }
    destruct (IH (currEpoch - 1)
                (out ++ [Entry_ (Entry b ctx round (world s)).1])
                (requested b ctx round s)
                ltac:(unfold in_int64 in *; lia) ltac:(lia))
      as [[Hans Hrun]|[(j & cause & Hj & Hans & Hd & Hrun)
                      |(j & err & Hj & Hans & Hd & He & Hrun)]];
      change (world (requested b ctx round s)) with w1 in *;
      rewrite Hrun, Hafter.
    + left. split; [by apply Hshift|].
      by rewrite fetched_S, <- app_assoc.
    + right; left. exists (S j), cause.
      split_and!; [lia|by apply Hshift|done|done].
    + right; right. exists (S j), err.
      split_and!; [lia|by apply Hshift|done|done|done].
Qed.

(** X1: [reverse] returns the slice in reverse order, whatever its length
    (empty, odd or even): it never indexes out of range, calls nothing
    and leaves the world as it is; the element at position [i] of the
    result is the element at position [len - 1 - i] of the argument. *)
Theorem X1_reverse_reverses (arr : list BeaconEntry) s :
  reverse arr s = (Ok (rev arr), s) /\
  forall i : nat, (i < length arr)%nat ->
    rev arr !! i = arr !! (length arr - 1 - i)%nat.
Proof.
  split; [apply reverse_rev|].
  intros i Hi. rewrite rev_alt.
  change (rev_append arr []) with (list.reverse arr).
  rewrite reverse_lookup by done. f_equal. lia.
Qed.



(** X3: a non-fork call of [BeaconEntriesForBlock] for which entries are
    due sends its requests to the beacon of [epoch] in descending epoch
    order, one for the maximal round of each of [epoch], [epoch - 1], ...
    It succeeds exactly when each of the [epoch - parentEpoch] requests
    is answered, that is, not cancelled and without error, and then
    returns the entries received, those of the older epochs first.
    Otherwise it stops at the first request that is not answered and
    sends none after it: if the context is done while that response is
    pending, the error is the timeout error with the cancellation cause,
    and if its response carries an error, the error is the request error
    wrapping it. *)
Theorem X3_producer_requests ctx bSchedule nv
    (epoch parentEpoch : ChainEpoch) (prev : BeaconEntry) s :
  let b := BeaconForEpoch bSchedule epoch in
  let n := Z.to_nat (epoch - parentEpoch) in
  let after := fun m : nat =>
    {| world := worldAfter ctx b nv epoch (world s) m;
       trace := trace s ++ requestsDown b nv epoch m |} in
  forkCase bSchedule parentEpoch epoch = false ->
  MaxBeaconRoundForEpoch b nv epoch <> Round prev ->
  in_int64 parentEpoch -> in_int64 epoch ->
  ((forall k : nat, (k < n)%nat -> answered ctx b nv epoch (world s) k) /\
   BeaconEntriesForBlock ctx bSchedule nv epoch parentEpoch prev s
   = (Ok (rev (fetched ctx b nv epoch (world s) n)), after n)) \/
  (exists (j : nat) (cause : string),
     (j < n)%nat /\
     (forall k : nat, (k < j)%nat -> answered ctx b nv epoch (world s) k) /\
     Done ctx (worldAfter ctx b nv epoch (world s) (S j)) = Some cause /\
     BeaconEntriesForBlock ctx bSchedule nv epoch parentEpoch prev s
     = (Fail (ErrContextTimedOut epoch cause), after (S j))) \/
  (exists (j : nat) (err : string),
     (j < n)%nat /\
     (forall k : nat, (k < j)%nat -> answered ctx b nv epoch (world s) k) /\
     Done ctx (worldAfter ctx b nv epoch (world s) (S j)) = None /\
     Err (responseAt ctx b nv epoch (world s) j) = Some err /\
     BeaconEntriesForBlock ctx bSchedule nv epoch parentEpoch prev s
     = (Fail (ErrEntryRequest err), after (S j))).
Proof.
  intros b n after Hnf Hne Hp He.
  rewrite BeaconEntriesForBlock_nonfork by done. fold b.
  destruct (fetchLoop_run ctx b nv epoch parentEpoch Hp
              (Z.to_nat (epoch - parentEpoch)) epoch [] s He ltac:(lia))
    as [[Hans Hrun]|[(j & cause & Hj & Hans & Hd & Hrun)
                    |(j & err & Hj & Hans & Hd & Herr & Hrun)]];
    rewrite Hrun.
  - left. by split.
  - right; left. exists j, cause. by split_and!.
  - right; right. exists j, err. by split_and!.
Qed.

(** X4: when [epoch] is not after [parentEpoch] a non-fork call of
    [BeaconEntriesForBlock] returns the empty sequence without error and
    without any request, whatever [prev] is; if the maximal round of
    [epoch] differs from the round of [prev], [ValidateBlockValues]
    rejects that block for lack of entries. *)
Theorem X4_producer_epoch_not_after_parent ctx bSchedule nv
    (epoch parentEpoch : ChainEpoch) (prev : BeaconEntry) s :
  forkCase bSchedule parentEpoch epoch = false ->
  epoch <= parentEpoch ->
  BeaconEntriesForBlock ctx bSchedule nv epoch parentEpoch prev s
  = (Ok [], s) /\
  (MaxBeaconRoundForEpoch (BeaconForEpoch bSchedule epoch) nv epoch
   <> Round prev ->
   ValidateBlockValues bSchedule nv
     {| Height := epoch; BeaconEntries := [] |} parentEpoch prev s
   = (Fail ErrNoEntries, s)).
Proof.
  intros Hnf Hle. split.
  - destruct (Z.eq_dec
      (MaxBeaconRoundForEpoch (BeaconForEpoch bSchedule epoch) nv epoch)
      (Round prev)) as [Heq|Hne].
    + unfold BeaconEntriesForBlock. unfold forkCase in Hnf.
      by rewrite Hnf, Heq, Z.eqb_refl.
    + rewrite BeaconEntriesForBlock_nonfork by done.
      by rewrite fetchLoop_exit.
  - intros Hne. by rewrite ValidateBlockValues_due.
Qed.


(** X6: for an unchained beacon the validator accepts only what the
    producer returns, as far as rounds go.  If the block epoch is after
    the parent epoch, its maximal round belongs to no other epoch and is
    not the round of [prevEntry], then an accepted block carries exactly
    [blockEpoch - parentEpoch] entries, the one at position [k] with the
    maximal round of epoch [parentEpoch + k + 1]. *)
Theorem X6_accepted_unchained_block_has_one_entry_per_epoch bSchedule nv h
    (parentEpoch : ChainEpoch) (prevEntry : BeaconEntry) s :
  let b := BeaconForEpoch bSchedule (Height h) in
  IsChained b = false ->
  parentEpoch < Height h ->
  in_int64 parentEpoch -> in_int64 (Height h) ->
  Z.of_nat (length (BeaconEntries h)) < 2 ^ 63 ->
  MaxBeaconRoundForEpoch b nv (Height h) <> Round prevEntry ->
  (forall e : ChainEpoch, in_int64 e ->
     MaxBeaconRoundForEpoch b nv e = MaxBeaconRoundForEpoch b nv (Height h) ->
     e = Height h) ->
  (ValidateBlockValues bSchedule nv h parentEpoch prevEntry s).1 = Ok tt ->
  length (BeaconEntries h) = Z.to_nat (Height h - parentEpoch) /\
  forall (k : nat) (e : BeaconEntry),
    BeaconEntries h !! k = Some e ->
    Round e = MaxBeaconRoundForEpoch b nv (parentEpoch + Z.of_nat k + 1).
Proof.
  intros b Hu Hlt Hp Hh Hlen Hne Hinj Hok.
  rewrite ValidateBlockValues_due in Hok
    by (done || by apply forkCase_unchained).
  cbv zeta in Hok. fold b in Hok. rewrite Hu in Hok. simpl in Hok.
  destruct (last (BeaconEntries h)) as [l|] eqn:Hl; [|done].
  destruct (Z.eqb_spec (Round l) (MaxBeaconRoundForEpoch b nv (Height h)))
    as [Hlast|?]; [|done].
  simpl in Hok.
  destruct (checkRounds b nv parentEpoch 0 (BeaconEntries h) s)
    as [[[]| | |] s1] eqn:Hcheck; try done.
  pose proof (checkRounds_inv _ _ _ _ _ _ _ Hcheck) as Hrounds.
  rewrite last_lookup in Hl.
  pose proof (lookup_lt_Some _ _ _ Hl) as Hpos.
  pose proof (Hrounds _ _ Hl) as Hrl. simpl in Hrl. rewrite Hlast in Hrl.
  symmetry in Hrl. apply Hinj in Hrl; [|apply wrapS64_range].
  unfold epochAdd, epochOfIndex in Hrl.
  rewrite wrapS64_add_l in Hrl.
  replace (parentEpoch + wrapS64 (Z.of_nat (pred (length (BeaconEntries h))))
           + 1)
    with (parentEpoch + 1
          + wrapS64 (Z.of_nat (pred (length (BeaconEntries h)))))
    in Hrl by lia.
  rewrite wrapS64_add_r in Hrl.
  destruct (wrapS64_congr
              (parentEpoch + 1 + Z.of_nat (pred (length (BeaconEntries h)))))
    as [q Hq].
  rewrite Hrl in Hq. unfold in_int64 in *.
  assert (q = 0) as -> by lia.
  split; [lia|].
  intros k e Hk. rewrite (Hrounds k e Hk). simpl. f_equal.
  apply lookup_lt_Some in Hk.
  apply epoch_of_position. unfold in_int64. lia.
Qed.
End More.


Lemma X3_witness :
  BeaconEntriesForBlock (deadlineAfter 2) testSchedule 0 13 10 (entry 10) start
  = (Fail (ErrContextTimedOut 13 "context deadline exceeded"),
     {| world := 2%nat;
        trace := [EvEntry mainBeacon 13; EvEntry mainBeacon 12] |}).
Proof.
  destruct (X3_producer_requests (deadlineAfter 2) testSchedule 0 13 10
              (entry 10) start)
    as [[Hans _]|[(j & cause & Hj & Hans & Hd & Hrun)
                 |(j & err & Hj & Hans & Hd & Herr & Hrun)]].
  - reflexivity.
  - discriminate.
  - unfold in_int64. lia.
  - unfold in_int64. lia.
  - destruct (Hans 1%nat ltac:(simpl; lia)) as [Hdone _]. discriminate Hdone.
  - reflexivity.
  - reflexivity.
Defined.

Lemma X4_witness :
  BeaconEntriesForBlock background testSchedule 0 10 13 (entry 7) start
  = (Ok [], start) /\
  (MaxBeaconRoundForEpoch (BeaconForEpoch testSchedule 10) 0 10
   <> Round (entry 7) ->
   ValidateBlockValues testSchedule 0
     {| Height := 10; BeaconEntries := [] |} 13 (entry 7) start
   = (Fail ErrNoEntries, start)).
Proof.
  apply (X4_producer_epoch_not_after_parent background testSchedule 0 10 13
           (entry 7) start).
  - reflexivity.
  - lia.
Defined.


Lemma X6_witness :
  length [entry 11; entry 12; entry 13] = Z.to_nat (13 - 10) /\
  forall (k : nat) (e : BeaconEntry),
    [entry 11; entry 12; entry 13] !! k = Some e ->
    Round e = MaxBeaconRoundForEpoch mainBeacon 0 (10 + Z.of_nat k + 1).
Proof.
  exact (X6_accepted_unchained_block_has_one_entry_per_epoch testSchedule 0
           {| Height := 13; BeaconEntries := [entry 11; entry 12; entry 13] |}
           10 (entry 10) start
           eq_refl eq_refl
           ltac:(unfold in_int64; lia) ltac:(unfold in_int64; simpl; lia)
           ltac:(vm_compute; reflexivity) ltac:(discriminate)
           ltac:(intros e _; simpl; rewrite !Z.div_1_r; lia)
           ltac:(vm_compute; reflexivity)).
Defined.

End Beacon.

(** * The miner actor (package [miner])

    The sector table of the miner actor: [upsertDealsToSector] and the
    function that [CommitSector] runs on the actor state.

    Conventions of the embedding:
    - [state.Sectors] is a slice of pointers to sectors; it is a list of
      sectors, the pointers being taken non-nil and pairwise distinct, so
      that a write through [state.Sectors[i]] is an update at index [i].
    - A [[]byte] that is compared with [nil] is an [option]; a Go [error]
      is an [option] of an error value, [None] for [nil].
    - The types [types.Address], [peer.ID], [*types.BytesAmount] and
      [*types.AttoFIL], the operations on byte amounts and the [Send]
      method of the VM context are declared outside the file under study:
      they are parameters of the development.
    - [actor.WithState], which loads the state, runs the function it is
      given and stores the state, is outside the file as well: the
      functions passed to it are modelled, on the state in memory. *)

Module Miner.

(** ** Errors *)

Definition ErrPublicKeyTooBig : Z := 33.
Definition ErrInvalidSector : Z := 34.
Definition ErrSectorCommited : Z := 35.
Definition ErrStoragemarketCallFailed : Z := 36.
Definition ErrCallerUnauthorized : Z := 37.
Definition ErrInsufficientPledge : Z := 38.

(** An error value: a revert error with its code and message, as built by
    [errors.NewCodedRevertErrorf], or an error of another component. *)
Inductive error :=
| CodedRevert (code : Z) (msg : string)
| Foreign (msg : string).

(** [Errors]: the map from error codes to the errors of this actor. *)
Definition Errors : gmap Z error :=
  list_to_map
    [ (ErrPublicKeyTooBig,
       CodedRevert ErrPublicKeyTooBig "public key must be less than 100 bytes");
      (ErrInvalidSector,
       CodedRevert ErrInvalidSector "sectorID out of range");
      (ErrSectorCommited,
       CodedRevert ErrSectorCommited "sector already committed");
      (ErrStoragemarketCallFailed,
       CodedRevert ErrStoragemarketCallFailed "call to StorageMarket failed");
      (ErrCallerUnauthorized,
       CodedRevert ErrCallerUnauthorized "not authorized to call the method");
      (ErrInsufficientPledge,
       CodedRevert ErrInsufficientPledge "not enough pledged") ].

(** ** Data model *)

(** [Sector]: [CommR = None] is the [nil] slice. *)
Record Sector := { CommR : option (list Byte.byte); Deals : list Z }.

(** [new(Sector)] *)
Definition newSector : Sector := {| CommR := None; Deals := [] |}.

(** [State] *)
Record State (Address PeerID BytesAmount AttoFIL : Type) := {
  Owner : Address;
  PeerID_ : PeerID;
  PublicKey : option (list Byte.byte);
  PledgeBytes : BytesAmount;
  Collateral : AttoFIL;
  Sectors : list Sector;
  LockedStorage : BytesAmount;
  Power : BytesAmount
}.
Arguments Owner {Address PeerID BytesAmount AttoFIL} _.
Arguments PeerID_ {Address PeerID BytesAmount AttoFIL} _.
Arguments PublicKey {Address PeerID BytesAmount AttoFIL} _.
Arguments PledgeBytes {Address PeerID BytesAmount AttoFIL} _.
Arguments Collateral {Address PeerID BytesAmount AttoFIL} _.
Arguments Sectors {Address PeerID BytesAmount AttoFIL} _.
Arguments LockedStorage {Address PeerID BytesAmount AttoFIL} _.
Arguments Power {Address PeerID BytesAmount AttoFIL} _.
Arguments Build_State {Address PeerID BytesAmount AttoFIL} _ _ _ _ _ _ _ _.

(** A message handed to [ctx.Send]: destination, method, value and
    parameters; the only parameter list sent by the modelled code is one
    array of deal identifiers. *)
Record message (Address AttoFIL : Type) := {
  msgTo : Address;
  msgMethod : string;
  msgValue : option AttoFIL;
  msgParams : list (list Z)
}.
Arguments msgTo {Address AttoFIL} _.
Arguments msgMethod {Address AttoFIL} _.
Arguments msgValue {Address AttoFIL} _.
Arguments msgParams {Address AttoFIL} _.
Arguments Build_message {Address AttoFIL} _ _ _ _.

(** What the code needs from the VM and from package [types]. *)
Class Runtime (World Address BytesAmount AttoFIL : Type) := {
  StorageMarketAddress : Address;
  (* ctx.Send: return values, exit code, error *)
  Send : message Address AttoFIL -> World ->
         (list (list Byte.byte) * Z * option error) * World;
  (* (z *BytesAmount).Add(y) *)
  bytesAdd : BytesAmount -> BytesAmount -> BytesAmount;
  NewBytesAmountFromBytes : list Byte.byte -> BytesAmount
}.

(** ** Computations on the actor state *)

Record run (World Address PeerID BytesAmount AttoFIL : Type) := {
  actor : State Address PeerID BytesAmount AttoFIL;
  world : World;
  sent : list (message Address AttoFIL)
}.
Arguments actor {World Address PeerID BytesAmount AttoFIL} _.
Arguments world {World Address PeerID BytesAmount AttoFIL} _.
Arguments sent {World Address PeerID BytesAmount AttoFIL} _.
Arguments Build_run {World Address PeerID BytesAmount AttoFIL} _ _ _.

(** Outcome of a call: a value with a nil error, a non-nil error, or a
    run-time panic. *)
Inductive result (A : Type) :=
| Ok (a : A)
| Fail (e : error)
| Panic.
Arguments Ok {A} _.
Arguments Fail {A} _.
Arguments Panic {A}.

Section Actor.
Context {World Address PeerID BytesAmount AttoFIL : Type}
  `{Runtime World Address BytesAmount AttoFIL}.

Local Abbreviation St := (State Address PeerID BytesAmount AttoFIL).
Local Abbreviation Run := (run World Address PeerID BytesAmount AttoFIL).

Definition M (A : Type) : Type := Run -> result A * Run.

Definition ret {A} (a : A) : M A := fun r => (Ok a, r).
Definition fail {A} (e : error) : M A := fun r => (Fail e, r).
Definition panic {A} : M A := fun r => (Panic, r).

Definition bind {A C} (m : M A) (k : A -> M C) : M C :=
  fun r =>
    match m r with
    | (Ok a, r') => k a r'
    | (Fail e, r') => (Fail e, r')
    | (Panic, r') => (Panic, r')
    end.

(** [return v, err] *)
Definition returnErr {A} (v : A) (err : option error) : M A :=
  match err with
  | Some e => fail e
  | None => ret v
  end.

Definition getState : M St := fun r => (Ok (actor r), r).

Definition withSectors (st : St) (secs : list Sector) : St :=
  {| Owner := Owner st; PeerID_ := PeerID_ st; PublicKey := PublicKey st;
     PledgeBytes := PledgeBytes st; Collateral := Collateral st;
     Sectors := secs;
     LockedStorage := LockedStorage st; Power := Power st |}.

Definition withPower (st : St) (p : BytesAmount) : St :=
  {| Owner := Owner st; PeerID_ := PeerID_ st; PublicKey := PublicKey st;
     PledgeBytes := PledgeBytes st; Collateral := Collateral st;
     Sectors := Sectors st;
     LockedStorage := LockedStorage st; Power := p |}.

(** [state.Sectors = secs] *)
Definition setSectors (secs : list Sector) : M unit :=
  fun r => (Ok tt, {| actor := withSectors (actor r) secs;
                      world := world r; sent := sent r |}).

(** [state.Power = p] *)
Definition setPower (p : BytesAmount) : M unit :=
  fun r => (Ok tt, {| actor := withPower (actor r) p;
                      world := world r; sent := sent r |}).

(** [state.Sectors[i]] for an [int64] index: a negative index or one past
    the end is a run-time panic. *)
Definition sectorAt (i : Z) : M Sector :=
  fun r =>
    if i <? 0 then (Panic, r)
    else match Sectors (actor r) !! Z.to_nat i with
         | Some sec => (Ok sec, r)
         | None => (Panic, r)
         end.

(** A write through the pointer [state.Sectors[i]], obtained before. *)
Definition writeSector (i : Z) (sec : Sector) : M unit :=
  fun r => (Ok tt,
            {| actor := withSectors (actor r)
                          (<[Z.to_nat i := sec]> (Sectors (actor r)));
               world := world r; sent := sent r |}).

(** [ctx.Send(to, method, value, params)] *)
Definition callSend (msg : message Address AttoFIL)
  : M (list (list Byte.byte) * Z * option error) :=
  fun r =>
    let '(out, w) := Send msg (world r) in
    (Ok out, {| actor := actor r; world := w; sent := sent r ++ [msg] |}).

(** *** [upsertDealsToSector] *)

Definition upsertDealsToSector (sectorID : Z) (deals : list Z) : M Z :=
  bind getState (fun state =>
  bind (if sectorID =? Z.of_nat (length (Sectors state))
        then setSectors (Sectors state ++ [newSector])
        else ret tt) (fun _ =>
  bind getState (fun state =>
  if sectorID >? Z.of_nat (length (Sectors state)) then
    returnErr 0 (Errors !! ErrInvalidSector)
  else
    bind (sectorAt sectorID) (fun sector =>
    if bool_decide (CommR sector <> None) then
      returnErr 0 (Errors !! ErrSectorCommited)
    else
      bind (writeSector sectorID
              {| CommR := CommR sector; Deals := Deals sector ++ deals |})
        (fun _ => ret sectorID))))).

(** *** The function that [CommitSector] passes to [actor.WithState]

    [sectorID] is the value of the [*big.Int] argument; [Int64] keeps its
    low 64 bits.  The result is the interface value returned: [None] for
    [nil], the sector identifier otherwise. *)
Definition Int64 (x : Z) : Z := Beacon.wrapS64 x.

Definition CommitSector_func (sectorID : Z)
    (commR : option (list Byte.byte)) (deals : list Z) : M (option Z) :=
  let sectorIDInt := Int64 sectorID in
  bind (if negb (Nat.eqb (length deals) 0)
        then upsertDealsToSector sectorIDInt deals
        else ret sectorIDInt) (fun sectorIDInt =>
  bind (sectorAt sectorIDInt) (fun sector =>
  if bool_decide (CommR sector <> None) then
    returnErr None (Errors !! ErrSectorCommited)
  else
    bind (callSend {| msgTo := StorageMarketAddress;
                      msgMethod := "commitDeals";
                      msgValue := None;
                      msgParams := [Deals sector] |})
      (fun '(resp, retCode, err) =>
    match err with
    | Some e => fail e
    | None =>
        if negb (retCode =? 0) then
          returnErr None (Errors !! ErrStoragemarketCallFailed)
        else
          bind (writeSector sectorIDInt
                  {| CommR := commR; Deals := Deals sector |}) (fun _ =>
          bind (match resp !! 0%nat with
                | Some r0 => ret r0
                | None => panic
                end) (fun r0 =>
          let power := NewBytesAmountFromBytes r0 in
          bind getState (fun state =>
          bind (setPower (bytesAdd (Power state) power)) (fun _ =>
          ret (Some sectorID)))))
    end))).

(** The run [r] with the sector table replaced by [secs]. *)
Definition withTable (r : Run) (secs : list Sector) : Run :=
  {| actor := withSectors (actor r) secs; world := world r; sent := sent r |}.

(** The deals recorded for sector [n], none if there is no such sector. *)
Definition dealsOf (secs : list Sector) (n : nat) : list Z :=
  match secs !! n with
  | Some sec => Deals sec
  | None => []
  end.

(** The message by which the deals of a sector are committed. *)
Definition commitDealsMsg (deals : list Z) : message Address AttoFIL :=
  {| msgTo := StorageMarketAddress; msgMethod := "commitDeals";
     msgValue := None; msgParams := [deals] |}.

End Actor.

(** ** A concrete actor

    A storage market that accepts every commitment and answers with two
    bytes; byte amounts are integers and the power of a commitment is the
    number of bytes of the answer. *)

#[global] Instance testRuntime : Runtime nat string Z Z := {|
  StorageMarketAddress := "storage-market"%string;
  Send := fun _ w => (([[Byte.x2a; Byte.x2b]], 0, None), S w);
  bytesAdd := Z.add;
  NewBytesAmountFromBytes := fun bs => Z.of_nat (length bs)
|}.

Definition sealed : Sector :=
  {| CommR := Some [Byte.x01]; Deals := [1; 2] |}.
Definition open : Sector := {| CommR := None; Deals := [3] |}.

Definition testState : State string string Z Z :=
  {| Owner := "owner"%string; PeerID_ := "peer"%string;
     PublicKey := Some []; PledgeBytes := 100; Collateral := 10;
     Sectors := [sealed; open]; LockedStorage := 0; Power := 5 |}.

Definition testRun : run nat string string Z Z :=
  {| actor := testState; world := 0%nat; sent := [] |}.

(** ** Proofs *)

Section ActorFacts.
Context {World Address PeerID BytesAmount AttoFIL : Type}
  `{Runtime World Address BytesAmount AttoFIL}.

Local Abbreviation Run := (run World Address PeerID BytesAmount AttoFIL).

Lemma Errors_invalid_sector :
  Errors !! ErrInvalidSector
  = Some (CodedRevert 34 "sectorID out of range").
Proof. reflexivity. Qed.

Lemma Errors_sector_commited :
  Errors !! ErrSectorCommited
  = Some (CodedRevert 35 "sector already committed").
Proof. reflexivity. Qed.

Lemma Errors_call_failed :
  Errors !! ErrStoragemarketCallFailed
  = Some (CodedRevert 36 "call to StorageMarket failed").
Proof. reflexivity. Qed.

Lemma withTable_id (r : Run) : withTable r (Sectors (actor r)) = r.
Proof. by destruct r as [[] ? ?]. Qed.

Lemma withTable_twice (r : Run) (s1 s2 : list Sector) :
  withTable (withTable r s1) s2 = withTable r s2.
Proof. reflexivity. Qed.

(** [upsertDealsToSector] case by case. *)
Lemma upsert_spec (sectorID : Z) (deals : list Z) (r : Run) :
  upsertDealsToSector sectorID deals r =
    let secs := Sectors (actor r) in
    if sectorID <? 0 then (Panic, r)
    else if sectorID >? Z.of_nat (length secs) then
      (Fail (CodedRevert 34 "sectorID out of range"), r)
    else if sectorID =? Z.of_nat (length secs) then
      (Ok sectorID,
       withTable r (secs ++ [{| CommR := None; Deals := deals |}]))
    else
      match secs !! Z.to_nat sectorID with
      | Some {| CommR := Some _ |} =>
          (Fail (CodedRevert 35 "sector already committed"), r)
      | Some {| CommR := None; Deals := old |} =>
          (Ok sectorID,
           withTable r (<[Z.to_nat sectorID :=
                            {| CommR := None; Deals := old ++ deals |}]> secs))
      | None => (Panic, r)
      end.
Proof.
  cbv zeta. unfold upsertDealsToSector, bind, getState.
  destruct (Z.ltb_spec sectorID 0) as [Hneg|Hpos].
  - destruct (Z.eqb_spec sectorID (Z.of_nat (length (Sectors (actor r)))))
      as [?|_]; [lia|]. unfold ret.
    destruct (Z.gtb_spec sectorID (Z.of_nat (length (Sectors (actor r)))))
      as [?|_]; [lia|].
    unfold sectorAt. by destruct (Z.ltb_spec sectorID 0) as [_|?]; [|lia].
  - destruct (Z.eqb_spec sectorID (Z.of_nat (length (Sectors (actor r)))))
      as [Heq|Hne].
    + subst sectorID. unfold setSectors.
      cbn [actor Sectors withSectors world sent].
      rewrite length_app.
      destruct (Z.gtb_spec (Z.of_nat (length (Sectors (actor r))))
                  (Z.of_nat (length (Sectors (actor r)) + length [newSector])))
        as [Hc|_]; [simpl in Hc; lia|].
      unfold sectorAt.
      destruct (Z.ltb_spec (Z.of_nat (length (Sectors (actor r)))) 0)
        as [?|_]; [lia|].
      cbn [actor Sectors withSectors world sent].
      rewrite Nat2Z.id, list_lookup_middle by done.
      simpl. unfold writeSector, ret.
      destruct (Z.gtb_spec (Z.of_nat (length (Sectors (actor r))))
                  (Z.of_nat (length (Sectors (actor r))))) as [?|_]; [lia|].
      cbn [actor Sectors withSectors world sent].
      unfold withTable. rewrite Nat2Z.id.
      replace (<[length (Sectors (actor r)) :=
                 {| CommR := None; Deals := deals |}]>
                 (Sectors (actor r) ++ [newSector]))
        with (Sectors (actor r) ++ [{| CommR := None; Deals := deals |}]);
        [done|].
      rewrite <- (Nat.add_0_r (length (Sectors (actor r)))) at 1.
      by rewrite insert_app_r.
    + unfold ret.
      destruct (Z.gtb_spec sectorID (Z.of_nat (length (Sectors (actor r)))))
        as [Hgt|Hle]; [by rewrite Errors_invalid_sector|].
      unfold sectorAt. destruct (Z.ltb_spec sectorID 0) as [?|_]; [lia|].
      destruct (Sectors (actor r) !! Z.to_nat sectorID)
        as [[[c|] old]|] eqn:Hsec; [| |done].
      * rewrite bool_decide_eq_true_2 by done.
        by rewrite Errors_sector_commited.
      * rewrite bool_decide_eq_false_2 by (by intros []).
        reflexivity.
Qed.

Lemma upsert_rejects (sectorID : Z) (deals : list Z) (r : Run) :
  (Z.of_nat (length (Sectors (actor r))) < sectorID ->
   upsertDealsToSector sectorID deals r
   = (Fail (CodedRevert 34 "sectorID out of range"), r)) /\
  (forall (sec : Sector) (c : list Byte.byte),
     0 <= sectorID ->
     Sectors (actor r) !! Z.to_nat sectorID = Some sec ->
     CommR sec = Some c ->
     upsertDealsToSector sectorID deals r
     = (Fail (CodedRevert 35 "sector already committed"), r)).
Proof.
  split.
  - intros Hgt. rewrite upsert_spec. cbv zeta.
    destruct (Z.ltb_spec sectorID 0); [lia|].
    by destruct (Z.gtb_spec sectorID (Z.of_nat (length (Sectors (actor r)))));
      [|lia].
  - intros sec c Hpos Hsec Hc. rewrite upsert_spec. cbv zeta.
    pose proof (lookup_lt_Some _ _ _ Hsec) as Hlt.
    destruct (Z.ltb_spec sectorID 0); [lia|].
    destruct (Z.gtb_spec sectorID (Z.of_nat (length (Sectors (actor r)))));
      [lia|].
    destruct (Z.eqb_spec sectorID (Z.of_nat (length (Sectors (actor r)))));
      [lia|].
    rewrite Hsec. destruct sec as [cr ds]. simpl in Hc. by subst cr.
Qed.

(** X7: [upsertDealsToSector] rejects a sector identifier greater than the
    number of sectors with the "sectorID out of range" error (code 34) and
    a sector that is already committed with the "sector already committed"
    error (code 35); in both cases the state is left as it was. *)
Theorem X7_upsert_rejects (sectorID : Z) (deals : list Z) (r : Run) :
  (Z.of_nat (length (Sectors (actor r))) < sectorID ->
   upsertDealsToSector sectorID deals r
   = (Fail (CodedRevert 34 "sectorID out of range"), r)) /\
  (forall (sec : Sector) (c : list Byte.byte),
     0 <= sectorID ->
     Sectors (actor r) !! Z.to_nat sectorID = Some sec ->
     CommR sec = Some c ->
     upsertDealsToSector sectorID deals r
     = (Fail (CodedRevert 35 "sector already committed"), r)).
Proof. apply upsert_rejects. Qed.

(** X8: a negative sector identifier makes [upsertDealsToSector] panic on
    the index expression, with the state as it was; this is the case of
    the identifier -1, for which the comment of [AddDealsToSector]
    announces the allocation of a new sector. *)
Theorem X8_upsert_negative_panics (sectorID : Z) (deals : list Z) (r : Run) :
  sectorID < 0 -> upsertDealsToSector sectorID deals r = (Panic, r).
Proof.
  intros Hneg. rewrite upsert_spec. cbv zeta.
  by destruct (Z.ltb_spec sectorID 0); [|lia].
Qed.

Lemma upsert_appends (sectorID : Z) (deals : list Z) (r : Run) :
  let secs := Sectors (actor r) in
  let n := Z.to_nat sectorID in
  0 <= sectorID <= Z.of_nat (length secs) ->
  (forall sec : Sector, secs !! n = Some sec -> CommR sec = None) ->
  exists secs' : list Sector,
    upsertDealsToSector sectorID deals r = (Ok sectorID, withTable r secs') /\
    length secs' = Nat.max (length secs) (S n) /\
    secs' !! n = Some {| CommR := None; Deals := dealsOf secs n ++ deals |} /\
    forall j : nat, j <> n -> secs' !! j = secs !! j.
Proof.
  intros secs n Hrange Hopen. rewrite upsert_spec. cbv zeta.
  fold secs. fold n. unfold dealsOf.
  destruct (Z.ltb_spec sectorID 0); [lia|].
  destruct (Z.gtb_spec sectorID (Z.of_nat (length secs))); [lia|].
  destruct (Z.eqb_spec sectorID (Z.of_nat (length secs))) as [Heq|Hne].
  - assert (n = length secs) as Hn by lia.
    eexists. split_and!; [done|rewrite length_app; simpl; lia| |].
    + rewrite (lookup_ge_None_2 secs n) by lia.
      rewrite Hn. by rewrite list_lookup_middle.
    + intros j Hj. destruct (decide (j < length secs)%nat).
      * by rewrite lookup_app_l.
      * rewrite !lookup_ge_None_2; [done|lia|].
        rewrite length_app. simpl. lia.
  - destruct (lookup_lt_is_Some_2 secs n ltac:(lia)) as [[cr old] Hsec].
    rewrite Hsec. pose proof (Hopen _ Hsec) as Hc. simpl in Hc. subst cr.
    eexists. split_and!; [done|rewrite length_insert; lia| |].
    + rewrite list_lookup_insert_eq; [done|lia].
    + intros j Hj. by rewrite list_lookup_insert_ne.
Qed.

(** X9: for an identifier between 0 and the number of sectors whose
    sector, if it exists, is not committed, [upsertDealsToSector] returns
    the identifier; the identifier equal to the number of sectors
    allocates one new sector at the end.  Afterwards the sector holds the
    deals it had followed by the new ones, in order, it is still
    uncommitted, and every other sector is as it was. *)
Theorem X9_upsert_appends (sectorID : Z) (deals : list Z) (r : Run) :
  let secs := Sectors (actor r) in
  let n := Z.to_nat sectorID in
  0 <= sectorID <= Z.of_nat (length secs) ->
  (forall sec : Sector, secs !! n = Some sec -> CommR sec = None) ->
  exists secs' : list Sector,
    upsertDealsToSector sectorID deals r = (Ok sectorID, withTable r secs') /\
    length secs' = Nat.max (length secs) (S n) /\
    secs' !! n = Some {| CommR := None; Deals := dealsOf secs n ++ deals |} /\
    forall j : nat, j <> n -> secs' !! j = secs !! j.
Proof. apply upsert_appends. Qed.

(** X10: adding deals in two calls is adding them in one: for every
    identifier and every state, [upsertDealsToSector] with [d1] followed
    by [upsertDealsToSector] with [d2] on the same identifier gives the
    result and the state of [upsertDealsToSector] with [d1 ++ d2],
    errors and panics included. *)
Theorem X10_upsert_twice (sectorID : Z) (d1 d2 : list Z) (r : Run) :
  bind (upsertDealsToSector sectorID d1)
       (fun _ => upsertDealsToSector sectorID d2) r
  = upsertDealsToSector sectorID (d1 ++ d2) r.
Proof.
  unfold bind. rewrite (upsert_spec _ d1), (upsert_spec _ (d1 ++ d2)).
  cbv zeta.
  destruct (Z.ltb_spec sectorID 0) as [|Hpos]; [done|].
  destruct (Z.gtb_spec sectorID (Z.of_nat (length (Sectors (actor r)))))
    as [|Hle]; [done|].
  destruct (Z.eqb_spec sectorID (Z.of_nat (length (Sectors (actor r)))))
    as [Heq|Hne].
  - rewrite upsert_spec. cbv zeta.
    cbn [withTable actor Sectors withSectors world sent].
    rewrite length_app. simpl length.
    destruct (Z.ltb_spec sectorID 0); [lia|].
    destruct (Z.gtb_spec sectorID
                (Z.of_nat (length (Sectors (actor r)) + 1))); [lia|].
    destruct (Z.eqb_spec sectorID
                (Z.of_nat (length (Sectors (actor r)) + 1))); [lia|].
    replace (Z.to_nat sectorID) with (length (Sectors (actor r))) by lia.
    rewrite list_lookup_middle by done.
    unfold withTable. cbn [actor Sectors withSectors world sent].
    do 4 f_equal.
    rewrite <- (Nat.add_0_r (length (Sectors (actor r)))) at 1.
    by rewrite insert_app_r.
  - destruct (Sectors (actor r) !! Z.to_nat sectorID)
      as [[[c|] old]|] eqn:Hsec; [done| |done].
    pose proof (lookup_lt_Some _ _ _ Hsec) as Hlt.
    rewrite upsert_spec. cbv zeta.
    cbn [withTable actor Sectors withSectors world sent].
    rewrite length_insert.
    destruct (Z.ltb_spec sectorID 0); [lia|].
    destruct (Z.gtb_spec sectorID (Z.of_nat (length (Sectors (actor r)))));
      [lia|].
    destruct (Z.eqb_spec sectorID (Z.of_nat (length (Sectors (actor r)))));
      [lia|].
    rewrite list_lookup_insert_eq by done.
    unfold withTable. cbn [actor Sectors withSectors world sent].
    by rewrite list_insert_insert_eq, app_assoc.
Qed.

Lemma upsert_preserves (sectorID : Z) (deals : list Z) (r : Run) :
  let r' := (upsertDealsToSector sectorID deals r).2 in
  r' = withTable r (Sectors (actor r')) /\
  (length (Sectors (actor r)) <= length (Sectors (actor r'))
   <= S (length (Sectors (actor r))))%nat /\
  forall (j : nat) (sec : Sector),
    CommR sec <> None ->
    (Sectors (actor r') !! j = Some sec <-> Sectors (actor r) !! j = Some sec).
Proof.
  cbv zeta. rewrite upsert_spec. cbv zeta.
  assert (r = withTable r (Sectors (actor r)) /\
          (length (Sectors (actor r)) <= length (Sectors (actor r))
           <= S (length (Sectors (actor r))))%nat /\
          forall (j : nat) (sec : Sector),
            CommR sec <> None ->
            (Sectors (actor r) !! j = Some sec
             <-> Sectors (actor r) !! j = Some sec)) as Hsame.
  { split_and!; [by rewrite withTable_id|lia|lia|done]. }
  destruct (Z.ltb_spec sectorID 0) as [|Hpos]; [done|].
  destruct (Z.gtb_spec sectorID (Z.of_nat (length (Sectors (actor r)))))
    as [|Hle]; [done|].
  destruct (Z.eqb_spec sectorID (Z.of_nat (length (Sectors (actor r)))))
    as [Heq|Hne].
  - cbn [snd withTable actor Sectors withSectors].
    split_and!; [done|rewrite length_app; simpl; lia
                |rewrite length_app; simpl; lia|].
    intros j sec Hc. split.
    + intros Hj. apply lookup_app_Some in Hj as [Hj|[Hge Hj]]; [done|].
      apply list_lookup_singleton_Some in Hj as [_ <-]. by simpl in Hc.
    + intros Hj. by apply lookup_app_l_Some.
  - destruct (Sectors (actor r) !! Z.to_nat sectorID)
      as [[[c|] old]|] eqn:Hsec; [done| |done].
    cbn [snd withTable actor Sectors withSectors].
    split_and!; [done|rewrite length_insert; lia|rewrite length_insert; lia|].
    intros j sec Hc.
    destruct (decide (j = Z.to_nat sectorID)) as [->|Hj].
    + rewrite list_lookup_insert_eq by (by eapply lookup_lt_Some).
      rewrite Hsec. split; intros [= <-]; by simpl in Hc.
    + by rewrite list_lookup_insert_ne.
Qed.

(** X11: whatever its outcome, [upsertDealsToSector] sends no message,
    leaves the world and every field of the state other than the sector
    table as they were, removes no sector and adds at most one; it never
    commits a sector and never modifies a committed one: the committed
    sectors after the call are those before it, at the same positions and
    with the same contents. *)
Theorem X11_upsert_preserves (sectorID : Z) (deals : list Z) (r : Run) :
  let r' := (upsertDealsToSector sectorID deals r).2 in
  r' = withTable r (Sectors (actor r')) /\
  (length (Sectors (actor r)) <= length (Sectors (actor r'))
   <= S (length (Sectors (actor r))))%nat /\
  forall (j : nat) (sec : Sector),
    CommR sec <> None ->
    (Sectors (actor r') !! j = Some sec <-> Sectors (actor r) !! j = Some sec).
Proof. apply upsert_preserves. Qed.

(** [CommitSector] without deals, case by case. *)
Lemma commit_no_deals_spec (sectorID : Z) (commR : option (list Byte.byte))
    (r : Run) :
  CommitSector_func sectorID commR [] r =
    let i := Int64 sectorID in
    let secs := Sectors (actor r) in
    if i <? 0 then (Panic, r)
    else
      match secs !! Z.to_nat i with
      | None => (Panic, r)
      | Some {| CommR := Some _ |} =>
          (Fail (CodedRevert 35 "sector already committed"), r)
      | Some {| CommR := None; Deals := ds |} =>
          let out := Send (commitDealsMsg ds) (world r) in
          let asked :=
            {| actor := actor r; world := out.2;
               sent := sent r ++ [commitDealsMsg ds] |} in
          match out.1 with
          | (_, _, Some e) => (Fail e, asked)
          | (resp, retCode, None) =>
              if retCode =? 0 then
                let marked :=
                  withTable asked
                    (<[Z.to_nat i := {| CommR := commR; Deals := ds |}]> secs)
                in
                match resp with
                | [] => (Panic, marked)
                | r0 :: _ =>
                    (Ok (Some sectorID),
                     {| actor :=
                          withPower (actor marked)
                            (bytesAdd (Power (actor r))
                               (NewBytesAmountFromBytes r0));
                        world := out.2;
                        sent := sent r ++ [commitDealsMsg ds] |})
                end
              else
                (Fail (CodedRevert 36 "call to StorageMarket failed"), asked)
          end
      end.
Proof.
  cbv zeta. unfold CommitSector_func. simpl negb. cbv iota.
  unfold bind at 1. unfold ret at 1. unfold bind at 1. unfold sectorAt.
  destruct (Z.ltb_spec (Int64 sectorID) 0) as [|Hpos]; [done|].
  destruct (Sectors (actor r) !! Z.to_nat (Int64 sectorID))
    as [[[c|] ds]|] eqn:Hsec; [| |done].
  - rewrite bool_decide_eq_true_2 by done.
    by rewrite Errors_sector_commited.
  - rewrite bool_decide_eq_false_2 by (by intros []).
    unfold bind at 1. unfold callSend. cbn [Deals].
    fold (commitDealsMsg ds).
    destruct (Send (commitDealsMsg ds) (world r)) as [[[resp code] err] w].
    cbn [fst snd]. destruct err as [e|]; [reflexivity|].
    destruct (Z.eqb_spec code 0) as [->|Hcode]; simpl negb; cbv iota;
      [|by rewrite Errors_call_failed].
    unfold bind, writeSector, getState, setPower, ret, panic.
    cbn [actor world sent]. destruct resp; reflexivity.
Qed.

Lemma bind_ext {A C : Type} (m : M A) (k1 k2 : A -> M C) (r : Run) :
  (forall (a : A) (r' : Run), m r = (Ok a, r') -> k1 a r' = k2 a r') ->
  bind m k1 r = bind m k2 r.
Proof.
  intros Hk. unfold bind. destruct (m r) as [[a|e|] r'] eqn:Hm; [|done..].
  by apply Hk.
Qed.

Lemma upsert_returns_id (sectorID : Z) (deals : list Z) (r r' : Run) (a : Z) :
  upsertDealsToSector sectorID deals r = (Ok a, r') -> a = sectorID.
Proof.
  rewrite upsert_spec. cbv zeta. intros Hrun.
  destruct (sectorID <? 0); [done|].
  destruct (sectorID >? _); [done|].
  destruct (sectorID =? _); [by simplify_eq|].
  destruct (Sectors (actor r) !! Z.to_nat sectorID) as [[[c|] old]|];
    by simplify_eq.
Qed.

Lemma commit_with_deals (sectorID : Z)
    (commR : option (list Byte.byte)) (deals : list Z) (r : Run) :
  deals <> [] ->
  CommitSector_func sectorID commR deals r
  = bind (upsertDealsToSector (Int64 sectorID) deals)
         (fun _ => CommitSector_func sectorID commR []) r.
Proof.
  intros Hdeals. unfold CommitSector_func at 1.
  destruct deals as [|d deals]; [done|]. simpl negb. cbv iota.
  apply bind_ext. intros a r' Hrun.
  apply upsert_returns_id in Hrun as ->. reflexivity.
Qed.

(** X12: [CommitSector] with deals is [upsertDealsToSector] with these
    deals followed by [CommitSector] without deals on the resulting state:
    an error or a panic of the first step is the outcome of the whole, and
    the storage market is addressed only if the deals could be added. *)
Theorem X12_commit_with_deals_is_upsert_then_commit (sectorID : Z)
    (commR : option (list Byte.byte)) (deals : list Z) (r : Run) :
  deals <> [] ->
  CommitSector_func sectorID commR deals r
  = bind (upsertDealsToSector (Int64 sectorID) deals)
         (fun _ => CommitSector_func sectorID commR []) r.
Proof. apply commit_with_deals. Qed.

Lemma commit_rejects_committed (sectorID : Z)
    (commR : option (list Byte.byte)) (deals : list Z) (r : Run)
    (sec : Sector) (c : list Byte.byte) :
  0 <= Int64 sectorID ->
  Sectors (actor r) !! Z.to_nat (Int64 sectorID) = Some sec ->
  CommR sec = Some c ->
  CommitSector_func sectorID commR deals r
  = (Fail (CodedRevert 35 "sector already committed"), r).
Proof.
  intros Hpos Hsec Hc. destruct sec as [cr ds]. simpl in Hc. subst cr.
  destruct deals as [|d deals].
  - rewrite commit_no_deals_spec. cbv zeta.
    destruct (Z.ltb_spec (Int64 sectorID) 0); [lia|]. by rewrite Hsec.
  - rewrite commit_with_deals by done.
    unfold bind.
    by rewrite (proj2 (upsert_rejects _ _ _) _ _ Hpos Hsec eq_refl).
Qed.

(** X13: on a sector that is already committed [CommitSector] fails with
    the "sector already committed" error (code 35), whether deals are
    given or not; nothing is sent to the storage market and the state is
    left as it was. *)
Theorem X13_commit_rejects_committed_sector (sectorID : Z)
    (commR : option (list Byte.byte)) (deals : list Z) (r : Run)
    (sec : Sector) (c : list Byte.byte) :
  0 <= Int64 sectorID ->
  Sectors (actor r) !! Z.to_nat (Int64 sectorID) = Some sec ->
  CommR sec = Some c ->
  CommitSector_func sectorID commR deals r
  = (Fail (CodedRevert 35 "sector already committed"), r).
Proof. apply commit_rejects_committed. Qed.

(** A successful [CommitSector] leaves the sector with the given
    commitment. *)
Lemma commit_ok_inv (sectorID : Z) (commR : option (list Byte.byte))
    (deals : list Z) (r r' : Run) (v : option Z) :
  CommitSector_func sectorID commR deals r = (Ok v, r') ->
  0 <= Int64 sectorID /\
  exists ds : list Z,
    Sectors (actor r') !! Z.to_nat (Int64 sectorID)
    = Some {| CommR := commR; Deals := ds |}.
Proof.
  assert (forall r0 : Run,
            CommitSector_func sectorID commR [] r0 = (Ok v, r') ->
            0 <= Int64 sectorID /\
            exists ds : list Z,
              Sectors (actor r') !! Z.to_nat (Int64 sectorID)
              = Some {| CommR := commR; Deals := ds |}) as Hempty.
  { intros r0 Hrun. rewrite commit_no_deals_spec in Hrun. cbv zeta in Hrun.
    destruct (Z.ltb_spec (Int64 sectorID) 0) as [|Hpos]; [done|].
    destruct (Sectors (actor r0) !! Z.to_nat (Int64 sectorID))
      as [[[c|] ds]|] eqn:Hsec; [done| |done].
    destruct (Send (commitDealsMsg ds) (world r0)) as [[[resp code] err] w].
    cbn [fst snd] in Hrun. destruct err; [done|].
    destruct (code =? 0); [|done]. destruct resp as [|r0' resp]; [done|].
    simplify_eq. split; [done|]. exists ds.
    cbn [actor Sectors withPower withTable withSectors].
    apply list_lookup_insert_eq. by eapply lookup_lt_Some. }
  destruct deals as [|d deals]; [apply Hempty|].
  rewrite commit_with_deals by done. unfold bind.
  destruct (upsertDealsToSector _ _ r) as [[a|e|] r1]; [|done..].
  apply Hempty.
Qed.

(** X14: [CommitSector] succeeds on a sector that is not committed when
    the storage market accepts its deals: the sector may be the next free
    one if deals are given, and must exist otherwise.  Exactly one message
    is sent, a "commitDeals" to the storage market that carries all the
    deals of the sector, those recorded before followed by those given
    now; the sector then holds these deals and the given commitment, the
    other sectors are as they were, and the power is increased by the
    amount decoded from the first return value. *)
Theorem X14_commit_success (sectorID : Z) (commR : option (list Byte.byte))
    (deals : list Z) (r : Run) (r0 : list Byte.byte)
    (rest : list (list Byte.byte)) (w : World) :
  let i := Int64 sectorID in
  let n := Z.to_nat i in
  let secs := Sectors (actor r) in
  let ds := dealsOf secs n ++ deals in
  0 <= i <= Z.of_nat (length secs) ->
  (deals = [] -> i < Z.of_nat (length secs)) ->
  (forall sec : Sector, secs !! n = Some sec -> CommR sec = None) ->
  Send (commitDealsMsg ds) (world r) = ((r0 :: rest, 0, None), w) ->
  exists secs' : list Sector,
    CommitSector_func sectorID commR deals r
    = (Ok (Some sectorID),
       {| actor := withPower (withSectors (actor r) secs')
                     (bytesAdd (Power (actor r)) (NewBytesAmountFromBytes r0));
          world := w;
          sent := sent r ++ [commitDealsMsg ds] |}) /\
    length secs' = Nat.max (length secs) (S n) /\
    secs' !! n = Some {| CommR := commR; Deals := ds |} /\
    forall j : nat, j <> n -> secs' !! j = secs !! j.
Proof.
  intros i n secs ds Hrange Hexists Hopen Hsend.
  assert (forall r1 : Run,
            world r1 = world r -> sent r1 = sent r ->
            Power (actor r1) = Power (actor r) ->
            withSectors (actor r1) (Sectors (actor r1)) 
            = withSectors (actor r) (Sectors (actor r1)) ->
            Sectors (actor r1) !! n = Some {| CommR := None; Deals := ds |} ->
            CommitSector_func sectorID commR [] r1
            = (Ok (Some sectorID),
               {| actor :=
                    withPower
                      (withSectors (actor r)
                         (<[n := {| CommR := commR; Deals := ds |}]>
                            (Sectors (actor r1))))
                      (bytesAdd (Power (actor r)) (NewBytesAmountFromBytes r0));
                  world := w;
                  sent := sent r ++ [commitDealsMsg ds] |})) as Hcommit.
  { intros r1 Hw Hs Hp Hact Hsec. rewrite commit_no_deals_spec. cbv zeta.
    fold i. fold n.
    destruct (Z.ltb_spec i 0); [lia|].
    rewrite Hsec, Hw, Hsend, Hs, Hp. cbn [fst snd]. simpl.
    do 2 f_equal. unfold withPower, withTable, withSectors.
    cbn [actor Sectors Owner PeerID_ PublicKey PledgeBytes Collateral
         LockedStorage Power].
    injection Hact as -> -> -> -> -> -> _. done. }
  destruct deals as [|d deals].
  - specialize (Hexists eq_refl).
    destruct (lookup_lt_is_Some_2 secs n ltac:(lia)) as [[cr old] Hsec].
    pose proof (Hopen _ Hsec) as Hc. simpl in Hc. subst cr.
    assert (ds = old) as Hds.
    { unfold ds, dealsOf. by rewrite Hsec, app_nil_r. }
    exists (<[n := {| CommR := commR; Deals := ds |}]> secs).
    split_and!.
    + apply Hcommit; try done. fold secs. by rewrite Hsec, Hds.
    + rewrite length_insert. lia.
    + apply list_lookup_insert_eq. lia.
    + intros j Hj. by rewrite list_lookup_insert_ne.
  - destruct (upsert_appends i (d :: deals) r Hrange Hopen)
      as (secs1 & Hup & Hlen & Hn & Hothers).
    exists (<[n := {| CommR := commR; Deals := ds |}]> secs1).
    split_and!.
    + rewrite commit_with_deals by done. unfold bind. fold i. rewrite Hup.
      by rewrite (Hcommit (withTable r secs1)).
    + rewrite length_insert. done.
    + apply list_lookup_insert_eq. by eapply lookup_lt_Some.
    + intros j Hj. rewrite list_lookup_insert_ne by done. by apply Hothers.
Qed.

(** X15: a sector committed with a non-nil commitment is sealed: after a
    successful [CommitSector] with such a commitment, every
    [upsertDealsToSector] and every [CommitSector] on the same sector
    fails with the "sector already committed" error and changes
    nothing. *)
Theorem X15_committed_sector_is_sealed (sectorID : Z) (c : list Byte.byte)
    (deals : list Z) (r r' : Run) (v : option Z) :
  CommitSector_func sectorID (Some c) deals r = (Ok v, r') ->
  (forall d : list Z,
     upsertDealsToSector (Int64 sectorID) d r'
     = (Fail (CodedRevert 35 "sector already committed"), r')) /\
  (forall (commR2 : option (list Byte.byte)) (d2 : list Z),
     CommitSector_func sectorID commR2 d2 r'
     = (Fail (CodedRevert 35 "sector already committed"), r')).
Proof.
  intros Hrun. apply commit_ok_inv in Hrun as (Hpos & ds & Hsec).
  split.
  - intros d. by eapply (proj2 (upsert_rejects _ _ _)).
  - intros commR2 d2. by eapply commit_rejects_committed.
Qed.


(** X17: [CommitSector] sends at most one message, a "commitDeals" without
    value to the storage market.  When it returns an error, the power is
    as before and no sector has been committed or uncommitted: the
    committed sectors are those before the call, with the same
    contents. *)
Theorem X17_failed_commit_commits_nothing (sectorID : Z)
    (commR : option (list Byte.byte)) (deals : list Z) (r : Run) :
  let res := (CommitSector_func sectorID commR deals r).1 in
  let r' := (CommitSector_func sectorID commR deals r).2 in
  (sent r' = sent r \/
   exists ds : list Z, sent r' = sent r ++ [commitDealsMsg ds]) /\
  forall e : error, res = Fail e ->
    Power (actor r') = Power (actor r) /\
    forall (j : nat) (sec : Sector),
      CommR sec <> None ->
      (Sectors (actor r') !! j = Some sec
       <-> Sectors (actor r) !! j = Some sec).
Proof.
  assert (forall r0 : Run,
            let res := (CommitSector_func sectorID commR [] r0).1 in
            let r' := (CommitSector_func sectorID commR [] r0).2 in
            (sent r' = sent r0 \/
             exists ds : list Z, sent r' = sent r0 ++ [commitDealsMsg ds]) /\
            forall e : error, res = Fail e ->
              Power (actor r') = Power (actor r0) /\
              Sectors (actor r') = Sectors (actor r0)) as Hempty.
  { intros r0. cbv zeta. rewrite commit_no_deals_spec. cbv zeta.
    destruct (Z.ltb_spec (Int64 sectorID) 0) as [|Hpos]; [by split; [left|]|].
    destruct (Sectors (actor r0) !! Z.to_nat (Int64 sectorID))
      as [[[c|] ds]|] eqn:Hsec; [by split; [left|]| |by split; [left|]].
    destruct (Send (commitDealsMsg ds) (world r0)) as [[[resp code] err] w].
    cbn [fst snd]. destruct err; [by split; [right; eexists|]|].
    destruct (code =? 0); [|by split; [right; eexists|]].
    destruct resp; by split; [right; eexists|]. }
  destruct deals as [|d deals].
  - cbv zeta. destruct (Hempty r) as [Hsent Hfail]. split; [done|].
    intros e He. destruct (Hfail e He) as [Hp ->]. done.
  - cbv zeta. rewrite commit_with_deals by done. unfold bind.
    pose proof (upsert_preserves (Int64 sectorID) (d :: deals) r)
      as (Hr1 & _ & Hcommitted).
    destruct (upsertDealsToSector (Int64 sectorID) (d :: deals) r)
      as [[a|e1|] r1] eqn:Hup; cbn [fst snd] in *.
    + destruct (Hempty r1) as [Hsent Hfail].
      assert (sent r1 = sent r) as Hs by (by rewrite Hr1).
      assert (Power (actor r1) = Power (actor r)) as Hp by (by rewrite Hr1).
      rewrite Hs in Hsent. split; [done|].
      intros e He. destruct (Hfail e He) as [Hp' Hsecs].
      rewrite Hp', Hp, Hsecs. done.
    + split; [left; by rewrite Hr1|].
      intros e He. split; [by rewrite Hr1|done].
    + split; [left; by rewrite Hr1|]. done.
Qed.

End ActorFacts.

(** ** The properties on the concrete actor *)

Lemma X7_witness :
  upsertDealsToSector 5 [9] testRun
  = (Fail (CodedRevert 34 "sectorID out of range"), testRun).
Proof.
  apply (proj1 (X7_upsert_rejects 5 [9] testRun)). simpl. lia.
Defined.

Lemma X8_witness : upsertDealsToSector (-1) [9] testRun = (Panic, testRun).
Proof. apply X8_upsert_negative_panics. lia. Defined.

Lemma X9_witness :
  exists secs' : list Sector,
    upsertDealsToSector 2 [7; 8] testRun = (Ok 2, withTable testRun secs') /\
    length secs' = Nat.max 2 3 /\
    secs' !! 2%nat = Some {| CommR := None; Deals := [7; 8] |} /\
    forall j : nat, j <> 2%nat -> secs' !! j = [sealed; open] !! j.
Proof.
  apply (X9_upsert_appends 2 [7; 8] testRun).
  - simpl. lia.
  - intros sec Hsec. discriminate Hsec.
Defined.

Lemma X12_witness :
  CommitSector_func 1 (Some [Byte.x05]) [7] testRun
  = bind (upsertDealsToSector (Int64 1) [7])
         (fun _ => CommitSector_func 1 (Some [Byte.x05]) []) testRun.
Proof.
  apply X12_commit_with_deals_is_upsert_then_commit. discriminate.
Defined.

Lemma X13_witness :
  CommitSector_func 0 None [7] testRun
  = (Fail (CodedRevert 35 "sector already committed"), testRun).
Proof.
  apply (X13_commit_rejects_committed_sector 0 None [7] testRun sealed
           [Byte.x01]).
  - by vm_compute.
  - reflexivity.
  - reflexivity.
Defined.

Lemma X14_witness :
  exists secs' : list Sector,
    CommitSector_func 1 (Some [Byte.x05]) [7] testRun
    = (Ok (Some 1),
       {| actor := withPower (withSectors testState secs') (5 + 2);
          world := 1%nat;
          sent := [commitDealsMsg [3; 7]] |}) /\
    length secs' = 2%nat /\
    secs' !! 1%nat = Some {| CommR := Some [Byte.x05]; Deals := [3; 7] |} /\
    forall j : nat, j <> 1%nat -> secs' !! j = [sealed; open] !! j.
Proof.
  exact (X14_commit_success 1 (Some [Byte.x05]) [7] testRun
           [Byte.x2a; Byte.x2b] [] 1%nat
           ltac:(by vm_compute) ltac:(discriminate)
           ltac:(intros sec Hsec; vm_compute in Hsec; by simplify_eq)
           eq_refl).
Defined.

Lemma X15_witness :
  let r' := (CommitSector_func 1 (Some [Byte.x05]) [7] testRun).2 in
  (forall d : list Z,
     upsertDealsToSector (Int64 1) d r'
     = (Fail (CodedRevert 35 "sector already committed"), r')) /\
  (forall (commR2 : option (list Byte.byte)) (d2 : list Z),
     CommitSector_func 1 commR2 d2 r'
     = (Fail (CodedRevert 35 "sector already committed"), r')).
Proof.
  apply (X15_committed_sector_is_sealed 1 [Byte.x05] [7] testRun _ (Some 1)).
  vm_compute. reflexivity.
Defined.


End Miner.
